(** * SentimentAnalyser: the text analysis and aggregation engine

    Shallow embedding of [src/sentiment_analyzer.py] (class
    [SentimentAnalyzer]), of [src/social_scraper.py] (class
    [SocialMediaScraper]) and of the extraction of texts from pasted or
    uploaded content in [src/app.py], with the properties the
    specification states and further properties read off the code.

    Conventions of the model.
    - A Python [str] is a [list ascii]; a character is a code point in
      U+0000..U+00FF and is classified the way CPython classifies that code
      point ([str.isspace], the [\s], [\S] and [\w] classes of [re] on a
      [str] pattern, [str.lower]).
    - A Python [float] is a binary64 [PrimFloat.float].
    - The analyzer object is a record with the one attribute [results];
      methods are computations in a state-and-exception monad over it.
    - TextBlob, pandas, numpy and PRAW are not part of the repository: the
      scorer, the series mean, numpy's rounding and the Reddit client are
      parameters.
    - In the scraper a [print] can raise, and [except Exception] catches
      the exceptions that are instances of [Exception] only: which those
      are, and which lines the output takes, are parameters too. *)

From Stdlib Require Import List Bool Arith Lia ZArith Ascii String.
From Stdlib Require Import Sorted.
From Stdlib Require Import Floats.
Import ListNotations.

(** ** Characters and strings *)

Definition str := list ascii.

Definition s2l (s : string) : str := list_ascii_of_string s.

Definition code (c : ascii) : nat := nat_of_ascii c.

Definition between (lo hi n : nat) : bool := (lo <=? n) && (n <=? hi).

(** [Py_UNICODE_ISSPACE] on U+0000..U+00FF: TAB..CR, FS..US, SPACE, NEL and
    NBSP.  [str.split], [str.strip] and the regular-expression class [\s]
    all use it. *)
Definition isspace (c : ascii) : bool :=
  let n := code c in
  between 9 13 n || between 28 32 n || (n =? 133) || (n =? 160).

Definition nonspace (c : ascii) : bool := negb (isspace c).

(** The class [\w] of [re] on a [str] pattern: alphanumeric code points and
    the underscore.  On U+0000..U+00FF the alphanumerics are the ASCII
    digits and letters, the ordinal indicators, the micro sign, the
    superscript digits, the vulgar fractions and the accented letters. *)
Definition isword (c : ascii) : bool :=
  let n := code c in
  between 48 57 n || between 65 90 n || (n =? 95) || between 97 122 n
  || (n =? 170) || (n =? 178) || (n =? 179) || (n =? 181) || (n =? 185)
  || (n =? 186) || between 188 190 n
  || between 192 214 n || between 216 246 n || between 248 255 n.

(** [str.lower] on one code point of U+0000..U+00FF. *)
Definition lower_char (c : ascii) : ascii :=
  let n := code c in
  if between 65 90 n || between 192 214 n || between 216 222 n
  then ascii_of_nat (n + 32) else c.

(** On this range [str.lower] gives one code point for each code point;
    beyond it a code point can lower to two (U+0130), so the properties
    test the length of a token before it is lowered, as the code does. *)
Definition lower (s : str) : str := map lower_char s.

Definition str_eqb (a b : str) : bool :=
  if list_eq_dec ascii_dec a b then true else false.

(** ** Regular-expression substitution, [re.sub(pattern, '', text)]

    A pattern is given by its matcher at the current position: the length of
    the match starting there, if there is one.  [re.sub] scans left to
    right; at a position where the pattern matches [n >= 1] characters they
    are dropped and the scan resumes behind them, otherwise the character is
    kept and the scan moves on by one. *)

(** Length of the longest prefix whose characters satisfy [p]: a greedy
    [p+] that nothing follows. *)
Fixpoint span (p : ascii -> bool) (t : str) : nat :=
  match t with
  | c :: t' => if p c then S (span p t') else 0
  | [] => 0
  end.

(** Strip a literal prefix. *)
Fixpoint lit (p t : str) : option str :=
  match p, t with
  | [], _ => Some t
  | a :: p', b :: t' => if Ascii.eqb a b then lit p' t' else None
  | _ :: _, [] => None
  end.

(** [l cls+]: the literal [l], then one or more characters of class [cls]. *)
Definition lit_plus (l : str) (cls : ascii -> bool) (t : str) : option nat :=
  match lit l t with
  | Some r => match span cls r with
              | 0 => None
              | S k => Some (List.length l + S k)
              end
  | None => None
  end.

(** Alternation: the first alternative that matches wins. *)
Definition alt (m1 m2 : str -> option nat) (t : str) : option nat :=
  match m1 t with
  | Some n => Some n
  | None => m2 t
  end.

Fixpoint re_sub_go (m : str -> option nat) (skip : nat) (t : str) : str :=
  match t with
  | [] => []
  | c :: t' =>
      match skip with
      | S k => re_sub_go m k t'
      | 0 => match m t with
             | Some (S k) => re_sub_go m k t'
             | _ => c :: re_sub_go m 0 t'
             end
      end
  end.

Definition re_sub (m : str -> option nat) (t : str) : str := re_sub_go m 0 t.

(** [r'http\S+|www\S+|https\S+'] *)
Definition url_re : str -> option nat :=
  alt (lit_plus (s2l "http") nonspace)
      (alt (lit_plus (s2l "www") nonspace)
           (lit_plus (s2l "https") nonspace)).

(** [r'@\w+'] *)
Definition mention_re : str -> option nat := lit_plus (s2l "@") isword.

(** [r'#'] *)
Definition hash_re (t : str) : option nat :=
  match lit (s2l "#") t with
  | Some _ => Some 1
  | None => None
  end.

(** ** [str.split()], [str.join], [str.strip()] *)

(** [text.split()]: the maximal runs of non-whitespace characters. *)
Fixpoint split_ws (t : str) : list str :=
  match t with
  | [] => []
  | c :: t' =>
      if isspace c then split_ws t'
      else match t' with
           | d :: _ =>
               if isspace d then [c] :: split_ws t'
               else match split_ws t' with
                    | w :: ws => (c :: w) :: ws
                    | [] => [[c]]
                    end
           | [] => [[c]]
           end
  end.

(** [sep.join(parts)] *)
Fixpoint join (sep : str) (parts : list str) : str :=
  match parts with
  | [] => []
  | [w] => w
  | w :: ws => w ++ sep ++ join sep ws
  end.

Fixpoint lstrip (t : str) : str :=
  match t with
  | c :: t' => if isspace c then lstrip t' else t
  | [] => []
  end.

(** [text.strip()] *)
Definition strip (t : str) : str := rev (lstrip (rev (lstrip t))).

(** Truth value of a [str]: non-empty. *)
Definition truthy (t : str) : bool :=
  match t with [] => false | _ :: _ => true end.

(** ** [SentimentAnalyzer.clean_text] *)

Definition remove_urls (t : str) : str := re_sub url_re t.
Definition remove_mentions (t : str) : str := re_sub mention_re t.
Definition remove_hashes (t : str) : str := re_sub hash_re t.
Definition squeeze (t : str) : str := join (s2l " ") (split_ws t).

Definition clean_text (text : str) : str :=
  let text := remove_urls text in
  let text := remove_mentions text in
  let text := remove_hashes text in
  squeeze text.

(** The example of the specification. *)
Definition spec_example : str := s2l "Check http://x.co @bob #great".

(** ** Floats: the thresholds and the builtin [round(x, 3)] *)

Open Scope float_scope.

(** The literal [0.1] is the binary64 number nearest to one tenth. *)
Definition f0_1 : float := 0x1.999999999999ap-4.

Definition fneg0_1 : float := - f0_1.

(** Round-half-even quotient of a non-negative [a] by a positive [b]. *)
Definition rhe_div (a b : Z) : Z :=
  let q := (a / b)%Z in
  match (2 * (a mod b) ?= b)%Z with
  | Lt => q
  | Gt => (q + 1)%Z
  | Eq => if Z.even q then q else (q + 1)%Z
  end.

(** [round(x, 3)] on a Python float: the exact value of [x] is rounded
    half-to-even at the third decimal, and the result is the binary64
    number nearest to that decimal.  With [n] the rounded value in
    thousandths: when [n <= 2^53] both [n] and [1000] are exact in binary64
    and the IEEE division is that nearest number; when [n > 2^53] the
    neighbours of [x] are further than 0.0005 away, so it is [x] itself.
    Zeros, infinities and NaN round to themselves. *)
Definition py_round3 (x : float) : float :=
  match Prim2SF x with
  | S754_finite s m e =>
      let n := if (0 <=? e)%Z then (Zpos m * 2 ^ e * 1000)%Z
               else rhe_div (Zpos m * 1000) (2 ^ (- e)) in
      if (n <=? 2 ^ 53)%Z
      then let y := of_uint63 (Uint63.of_Z n) / 1000 in
           if s then - y else y
      else x
  | _ => x
  end.

Close Scope float_scope.

(** ** Records *)

Inductive Sentiment := Positive | Negative | Neutral.

Definition Sentiment_eqb (a b : Sentiment) : bool :=
  match a, b with
  | Positive, Positive | Negative, Negative | Neutral, Neutral => true
  | _, _ => false
  end.

(** The string the code stores for a label. *)
Definition label (s : Sentiment) : str :=
  match s with
  | Positive => s2l "Positive"
  | Negative => s2l "Negative"
  | Neutral => s2l "Neutral"
  end.

(** The threshold test of [analyze_sentiment]. *)
Definition classify (polarity : float) : Sentiment :=
  if (f0_1 <? polarity)%float then Positive
  else if (polarity <? fneg0_1)%float then Negative
  else Neutral.

(** The dict [analyze_sentiment] returns. *)
Record result := {
  text : str;
  cleaned_text : str;
  sentiment : Sentiment;
  polarity : float;
  subjectivity : float
}.

(** The dict [get_statistics] returns. *)
Record statistics := {
  total : nat;
  positive : nat;
  negative : nat;
  neutral : nat;
  positive_pct : float;
  negative_pct : float;
  neutral_pct : float;
  avg_polarity : float;
  avg_subjectivity : float
}.

(** ** The analyzer object and its methods *)

Record analyzer := { results : list result }.

Definition exn := string.

Inductive outcome (A : Type) :=
| Returned (a : A)
| Raised (e : exn).

Arguments Returned {A} a.
Arguments Raised {A} e.

(** A method: from the object's state to an outcome and the state left
    behind, also when an exception escapes. *)
Definition M (A : Type) := analyzer -> outcome A * analyzer.

Definition ret {A} (a : A) : M A := fun st => (Returned a, st).

Definition bind {A B} (m : M A) (k : A -> M B) : M B :=
  fun st => match m st with
            | (Returned a, st') => k a st'
            | (Raised e, st') => (Raised e, st')
            end.

Definition call {A} (o : outcome A) : M A := fun st => (o, st).

Definition get_results : M (list result) := fun st => (Returned (results st), st).

Definition set_results (rs : list result) : M unit :=
  fun _ => (Returned tt, {| results := rs |}).

Declare Scope monad_scope.
Delimit Scope monad_scope with monad.
Notation "x <- m ;; k" := (bind m (fun x => k))
  (at level 61, m at next level, right associativity) : monad_scope.
Notation "m ;; k" := (bind m (fun _ => k))
  (at level 61, right associativity) : monad_scope.
Open Scope monad_scope.

(** [for x in xs: body(x)] *)
Fixpoint for_each {A} (xs : list A) (body : A -> M unit) : M unit :=
  match xs with
  | [] => ret tt
  | x :: xs' => body x ;; for_each xs' body
  end.

(** *** Word counting: [collections.Counter] and [most_common] *)

(** [c[w] = c.get(w, 0) + 1] on an insertion-ordered dict: a key already
    present keeps its place, a new key goes last. *)
Fixpoint counter_incr (w : str) (c : list (str * nat)) : list (str * nat) :=
  match c with
  | [] => [(w, 1)]
  | (k, n) :: c' =>
      if str_eqb k w then (k, S n) :: c' else (k, n) :: counter_incr w c'
  end.

(** [Counter(words).items()] *)
Definition Counter (words : list str) : list (str * nat) :=
  fold_left (fun c w => counter_incr w c) words [].

(** [sorted(items, key=itemgetter(1), reverse=True)]: a stable sort, equal
    counts keep the order they had. *)
Fixpoint insert_desc (x : str * nat) (l : list (str * nat)) : list (str * nat) :=
  match l with
  | [] => [x]
  | y :: l' => if snd y <=? snd x then x :: l else y :: insert_desc x l'
  end.

Definition sorted_desc (l : list (str * nat)) : list (str * nat) :=
  fold_right insert_desc [] l.

(** [Counter.most_common(n)] is [heapq.nlargest(n, items, key=count)]: the
    first [n] of the stable descending sort, nothing when [n <= 0]. *)
Definition most_common (n : Z) (c : list (str * nat)) : list (str * nat) :=
  firstn (Z.to_nat n) (sorted_desc c).

Definition stopwords : list str :=
  map s2l
    ["the"; "a"; "an"; "and"; "or"; "but"; "in"; "on"; "at"; "to"; "for";
     "of"; "with"; "is"; "was"; "are"; "been"; "be"; "have"; "has"; "had";
     "do"; "does"; "did"; "will"; "would"; "could"; "should"; "may"; "might";
     "i"; "you"; "he"; "she"; "it"; "we"; "they"; "this"; "that"; "these";
     "those"]%string.

Definition str_in (w : str) (l : list str) : bool := existsb (str_eqb w) l.

(** The words [get_top_words] counts in [all_text]. *)
Definition top_word_list (all_text : str) : list str :=
  map lower
    (filter (fun word => (2 <? List.length word)%nat && negb (str_in (lower word) stopwords))
            (split_ws all_text)).

(** [if sentiment_type: df = df[df['sentiment'] == sentiment_type]]: [None]
    and the empty string select every record. *)
Definition select_sentiment (sentiment_type : option str) (df : list result)
  : list result :=
  match sentiment_type with
  | Some s => if truthy s
              then filter (fun r => str_eqb (label (sentiment r)) s) df
              else df
  | None => df
  end.

(** [' '.join(df['cleaned_text'].tolist())] *)
Definition all_cleaned_text (df : list result) : str :=
  join (s2l " ") (map cleaned_text df).

(** Position of the first occurrence of [w] in [l]; the length of [l] when
    there is none. *)
Fixpoint first_index (w : str) (l : list str) : nat :=
  match l with
  | [] => 0
  | x :: l' => if str_eqb x w then 0 else S (first_index w l')
  end.

Definition float_of_nat (n : nat) : float := of_uint63 (Uint63.of_Z (Z.of_nat n)).

Definition count_label (l : Sentiment) (rs : list result) : nat :=
  List.length (filter (fun r => Sentiment_eqb (sentiment r) l) rs).

(** The record [analyze_sentiment] builds from a text and its scores. *)
Definition make_result (t : str) (ps : float * float) : result :=
  {| text := t;
     cleaned_text := clean_text t;
     sentiment := classify (fst ps);
     polarity := py_round3 (fst ps);
     subjectivity := py_round3 (snd ps) |}.

Definition nonblank (t : str) : bool := truthy (strip t).

Section Analyzer.

(** TextBlob: polarity and subjectivity of a text, or the exception it
    raises. *)
Variable score : str -> outcome (float * float).

(** [round] on a numpy float and [Series.mean] of pandas. *)
Variable np_round : float -> nat -> float.
Variable series_mean : list float -> float.

Definition analyze_sentiment (text : str) : M result :=
  let cleaned_text := clean_text text in
  ps <- call (score cleaned_text) ;;
  let polarity := fst ps in
  let subjectivity := snd ps in
  let sentiment := classify polarity in
  ret {| text := text;
         cleaned_text := cleaned_text;
         sentiment := sentiment;
         polarity := py_round3 polarity;
         subjectivity := py_round3 subjectivity |}.

(** The body of the loop of [analyze_multiple]. *)
Definition loop_body (text : str) : M unit :=
  if truthy (strip text)
  then result <- analyze_sentiment text ;;
       rs <- get_results ;;
       set_results (rs ++ [result])
  else ret tt.

Definition analyze_multiple (texts : list str) : M (list result) :=
  set_results [] ;;
  for_each texts loop_body ;;
  get_results.

Definition pct (count total : nat) : float :=
  np_round (float_of_nat count / float_of_nat total * 100)%float 1.

Definition get_statistics : M (option statistics) :=
  rs <- get_results ;;
  match rs with
  | [] => ret None
  | _ :: _ =>
      let df := rs in
      let total := List.length df in
      ret (Some {| total := total;
                   positive := count_label Positive df;
                   negative := count_label Negative df;
                   neutral := count_label Neutral df;
                   positive_pct := pct (count_label Positive df) total;
                   negative_pct := pct (count_label Negative df) total;
                   neutral_pct := pct (count_label Neutral df) total;
                   avg_polarity := np_round (series_mean (map polarity df)) 3;
                   avg_subjectivity := np_round (series_mean (map subjectivity df)) 3 |})
  end.

Definition get_top_words (sentiment_type : option str) (top_n : Z)
  : M (list (str * nat)) :=
  rs <- get_results ;;
  match rs with
  | [] => ret []
  | _ :: _ =>
      let df := rs in
      let df := select_sentiment sentiment_type df in
      let all_text := all_cleaned_text df in
      let words := top_word_list all_text in
      let word_counts := most_common top_n (Counter words) in
      ret word_counts
  end.

(** [r] is the record of document [t]. *)
Definition analysed (t : str) (r : result) : Prop :=
  exists ps, score (clean_text t) = Returned ps /\ r = make_result t ps.

(** The scorer returns on every non-blank document of [texts]. *)
Definition scores_all (texts : list str) : Prop :=
  forall t, In t texts -> nonblank t = true ->
            exists ps, score (clean_text t) = Returned ps.

End Analyzer.

(** A scorer for the concrete runs below: it raises on the text "bad", is
    barely above the positive threshold on "fine" (polarity 0.1004) and
    clearly positive elsewhere. *)
Definition demo_score (t : str) : outcome (float * float) :=
  if str_eqb t (s2l "bad") then Raised "scoring failed"%string
  else if str_eqb t (s2l "fine")
       then Returned (0x1.9b3d07c84b5ddp-4, 0.5)%float
       else Returned (0.5, 0.75)%float.

Definition demo_old : result :=
  make_result (s2l "old") (0.5, 0.75)%float.

(** ** [src/social_scraper.py]: [SocialMediaScraper] *)

(** A submission as [search_reddit] reads it. *)
Record submission := { title : str; selftext : str }.

(** The lines the scraper prints, by the [print] statement they come
    from. *)
Inductive printed :=
| PrintConnected
| PrintConnectionFailed (e : exn)
| PrintNotInitialized
| PrintFound (n : nat) (query : str)
| PrintSearchError (e : exn).

(** [title + " " + selftext] *)
Definition post_text (s : submission) : str :=
  title s ++ s2l " " ++ selftext s.

(** The [for] loop of [search_reddit] over what the search yields: the
    submissions [items], then the end of the iteration or the exception
    [err].  It returns the local list [posts] as the loop leaves it and how
    the loop ended. *)
Fixpoint collect_posts (items : list submission) (err : option exn)
    (posts : list str) : list str * outcome unit :=
  match items with
  | s :: items' => collect_posts items' err (posts ++ [post_text s])
  | [] => (posts, match err with
                  | Some e => Raised e
                  | None => Returned tt
                  end)
  end.

Section Scraper.

(** PRAW: the client object, its construction from [config] (or the
    exception that raises), the connection test [user.me()], and what
    iterating [subreddit(subreddit).search(query, limit=limit)] yields
    before it ends or raises.  A submission whose [title] or [selftext]
    cannot be read or joined ends the loop as an exception of the
    iteration does, after the submissions before it. *)
Variable client : Type.
Variable connect : outcome client.
Variable me : client -> outcome unit.
Variable search : client -> str -> str -> Z -> list submission * option exn.

(** Whether an exception is an instance of [Exception], which is what the
    [except] clauses catch; a [KeyboardInterrupt] or [SystemExit] is not. *)
Variable is_exception : exn -> bool.

(** Building a line (with [str(e)] where it has one) and writing it to
    standard output: [None] when it is written, the exception otherwise
    (the lines hold non-ASCII marks, which an output that cannot encode
    them refuses). *)
Variable emit : printed -> option exn.

(** The scraper object, with the lines printed so far beside it. *)
Record scraper := {
  reddit_client : option client;
  stdout : list printed
}.

Definition SM (A : Type) := scraper -> outcome A * scraper.

Definition sret {A} (a : A) : SM A := fun st => (Returned a, st).

Definition sbind {A B} (m : SM A) (k : A -> SM B) : SM B :=
  fun st => match m st with
            | (Returned a, st') => k a st'
            | (Raised e, st') => (Raised e, st')
            end.

Definition scall {A} (o : outcome A) : SM A := fun st => (o, st).

(** [try: body / except Exception as e: handler(e)]: an exception that is
    not an [Exception] passes through. *)
Definition try_except {A} (body : SM A) (handler : exn -> SM A) : SM A :=
  fun st => match body st with
            | (Returned a, st') => (Returned a, st')
            | (Raised e, st') =>
                if is_exception e then handler e st' else (Raised e, st')
            end.

Definition get_client : SM (option client) :=
  fun st => (Returned (reddit_client st), st).

Definition set_client (c : option client) : SM unit :=
  fun st => (Returned tt, {| reddit_client := c; stdout := stdout st |}).

Definition print (l : printed) : SM unit :=
  fun st => match emit l with
            | None => (Returned tt,
                       {| reddit_client := reddit_client st;
                          stdout := stdout st ++ [l] |})
            | Some e => (Raised e, st)
            end.

Definition initialize_api : SM unit :=
  try_except
    (sbind (scall connect) (fun c =>
     sbind (set_client (Some c)) (fun _ =>
     sbind (scall (me c)) (fun _ =>
     print PrintConnected))))
    (fun e =>
     sbind (print (PrintConnectionFailed e)) (fun _ =>
     set_client None)).

(** [__init__] *)
Definition scraper_init : SM unit :=
  sbind (set_client None) (fun _ => initialize_api).

Definition search_reddit (query subreddit : str) (limit : Z) : SM (list str) :=
  sbind get_client (fun c =>
  match c with
  | None => sbind (print PrintNotInitialized) (fun _ => sret [])
  | Some c =>
      let (posts, ended) := collect_posts (fst (search c subreddit query limit))
                                          (snd (search c subreddit query limit)) [] in
      sbind (try_except
               (sbind (scall ended) (fun _ =>
                print (PrintFound (List.length posts) query)))
               (fun e => print (PrintSearchError e))) (fun _ =>
      sret posts)
  end).

Definition search_all (query : str) (count : Z) : SM (list str) :=
  search_reddit query (s2l "all") count.

End Scraper.

Arguments reddit_client {client} _.
Arguments stdout {client} _.
Arguments initialize_api {client} connect me is_exception emit _.
Arguments scraper_init {client} connect me is_exception emit _.
Arguments search_reddit {client} search is_exception emit query subreddit limit _.
Arguments search_all {client} search is_exception emit query count _.

(** ** [src/app.py]: the lines of a pasted or uploaded text *)

(** [text.split(sep)] for a separator of one character. *)
Fixpoint split_on (sep : ascii) (t : str) : list str :=
  match t with
  | [] => [[]]
  | c :: t' =>
      if Ascii.eqb c sep then [] :: split_on sep t'
      else match split_on sep t' with
           | l :: ls => (c :: l) :: ls
           | [] => [[c]]
           end
  end.

Definition newline : ascii := "010"%char.

(** [[line.strip() for line in content.split('\n') if line.strip()]] *)
Definition parse_lines (content : str) : list str :=
  map strip (filter (fun line => truthy (strip line)) (split_on newline content)).

(** The manual-input branch: the texts handed to [analyze_multiple], or
    nothing when the warning is shown instead. *)
Definition manual_texts (manual_text : str) : option (list str) :=
  if truthy (strip manual_text) then Some (parse_lines manual_text) else None.

(** ** Vocabulary of the properties *)

(** The test of the comprehension, on the lower-cased token. *)
Definition keeps (w : str) : bool :=
  (2 <? List.length w) && negb (str_in w stopwords).

Definition keys (c : list (str * nat)) : list str := map fst c.

Definition occurrences (w : str) (l : list str) : nat :=
  count_occ (list_eq_dec ascii_dec) l w.

(** The keys of a counter, in the order of their first occurrences. *)
Definition in_first_order (words keys : list str) : Prop :=
  StronglySorted (fun a b => first_index a words < first_index b words) keys.

(** The invariant of [Counter]: its keys are the distinct words, in the
    order they first occur, each with its number of occurrences. *)
Record counter_of (words : list str) (c : list (str * nat)) : Prop := {
  co_nodup : NoDup (keys c);
  co_keys : forall w, In w words <-> In w (keys c);
  co_count : forall k n, In (k, n) c -> n = occurrences k words;
  co_order : in_first_order words (keys c)
}.

(** [a] is ranked before [b]: a greater count, or the same count and an
    earlier first occurrence in [words]. *)
Definition ranked_before (words : list str) (a b : str * nat) : Prop :=
  snd b < snd a
  \/ (snd a = snd b /\ first_index (fst a) words < first_index (fst b) words).

(** No position of [t] starts a match of [m]. *)
Fixpoint free (m : str -> option nat) (t : str) : Prop :=
  match t with
  | [] => True
  | _ :: t' => m t = None /\ free m t'
  end.

(** [t] starts with the literal [l] and a character of class [cls]. *)
Definition starts (l : str) (cls : ascii -> bool) (t : str) : Prop :=
  exists x r, cls x = true /\ t = l ++ x :: r.

(** A URL starts at the head of [t]. *)
Definition url_at (t : str) : Prop :=
  starts (s2l "http") nonspace t
  \/ starts (s2l "www") nonspace t
  \/ starts (s2l "https") nonspace t.

(** A mention starts at the head of [t]. *)
Definition mention_at (t : str) : Prop := starts (s2l "@") isword t.

Definition nonword (c : ascii) : bool := negb (isword c).

(** A token: not empty and free of whitespace. *)
Definition token (w : str) : Prop :=
  w <> [] /\ Forall (fun c => isspace c = false) w.

(** The scan of [re.sub] as a relation between a text and what is left of
    it. *)
Inductive scan (m : str -> option nat) : str -> str -> Prop :=
| scan_nil : scan m [] []
| scan_keep c t o :
    m (c :: t) = None -> scan m t o -> scan m (c :: t) (c :: o)
| scan_drop c t k o :
    m (c :: t) = Some (S k) -> scan m (skipn k t) o -> scan m (c :: t) o.

(** [t] is empty or begins with a character of the class [stop]. *)
Definition stops (stop : ascii -> bool) (t : str) : Prop :=
  match t with
  | [] => True
  | c :: _ => stop c = true
  end.

(** [o] follows [t] character by character, up to its end or to a match
    in [t], behind which [o] resumes with a stopping character. *)
Inductive agree (m : str -> option nat) (stop : ascii -> bool)
  : str -> str -> Prop :=
| agree_end t : agree m stop t []
| agree_stop t c o : m t <> None -> stop c = true -> agree m stop t (c :: o)
| agree_cons c t o : agree m stop t o -> agree m stop (c :: t) (c :: o).

(** Where [m'] matches in [t], [m] matches too. *)
Fixpoint covered (m m' : str -> option nat) (t : str) : Prop :=
  match t with
  | [] => True
  | _ :: t' => (m t = None -> m' t = None) /\ covered m m' t'
  end.

(** The label on the other side of zero. *)
Definition opposite (s : Sentiment) : Sentiment :=
  match s with
  | Positive => Negative
  | Negative => Positive
  | Neutral => Neutral
  end.

(** A token of the text is counted: it has more than two characters and
    its lower-cased form is not a stopword. *)
Definition survives (word : str) : bool :=
  (2 <? List.length word) && negb (str_in (lower word) stopwords).

(** The words counted in a text: its counted tokens, lower-cased, in the
    order of the text. *)
Definition counted_words (t : str) : list str :=
  map lower (filter survives (split_ws t)).

(** [r] passes the sentiment filter: there is none ([None] or the empty
    string), or the label of [r] is the filter. *)
Definition passes (sentiment_type : option str) (r : result) : bool :=
  match sentiment_type with
  | Some [] => true
  | Some s => str_eqb (label (sentiment r)) s
  | None => true
  end.

(** The distinct words of a list. *)
Definition distinct (words : list str) : list str :=
  nodup (list_eq_dec ascii_dec) words.

(** [t] begins with a character that is not whitespace. *)
Definition headed (t : str) : Prop :=
  match t with
  | [] => False
  | c :: _ => isspace c = false
  end.

(** * Properties *)

(** ** Sanity checks of the embedding *)

Example clean_text_plain :
  clean_text (s2l "  I   love	this  ") = s2l "I love this".
Proof. reflexivity. Qed.

Example clean_text_www :
  clean_text (s2l "see www.a.b/c?d now") = s2l "see now".
Proof. reflexivity. Qed.

Example clean_text_email :
  clean_text (s2l "mail me@home.org") = s2l "mail me.org".
Proof. reflexivity. Qed.

Example clean_text_bare_http : clean_text (s2l "http http:") = s2l "http".
Proof. reflexivity. Qed.

Example clean_text_empty : clean_text [] = [].
Proof. reflexivity. Qed.

Example py_round3_a : py_round3 0.5%float = 0.5%float.
Proof. reflexivity. Qed.

Example py_round3_b : py_round3 0x1.9b3d07c84b5ddp-4%float = f0_1.
Proof. reflexivity. Qed.

Example py_round3_c :
  py_round3 (- 0x1.f972474538ef3p-2)%float = (- 0x1.f9db22d0e5604p-2)%float.
Proof. reflexivity. Qed.

Example py_round3_negative_zero :
  Prim2SF (py_round3 (- 0x1.a36e2eb1c432dp-12)%float) = S754_zero true.
Proof. reflexivity. Qed.

Example split_ws_runs :
  split_ws (s2l " ab  c d ") = [s2l "ab"; s2l "c"; s2l "d"].
Proof. reflexivity. Qed.

Example strip_both : strip (s2l "  a b  ") = s2l "a b".
Proof. reflexivity. Qed.

Example Counter_order :
  Counter [s2l "b"; s2l "a"; s2l "b"; s2l "c"; s2l "a"; s2l "b"]
  = [(s2l "b", 3); (s2l "a", 2); (s2l "c", 1)].
Proof. reflexivity. Qed.

Example most_common_stable :
  most_common 3 [(s2l "x", 1); (s2l "y", 2); (s2l "z", 1); (s2l "u", 2)]
  = [(s2l "y", 2); (s2l "u", 2); (s2l "x", 1)].
Proof. reflexivity. Qed.

(** ** Cleaning on the specification's example *)

(** C9: cleaning "Check http://x.co @bob #great" gives "Check great".  The
    URL goes with the first substitution, the mention with the second, the
    hash sign alone with the third, and the whitespace left behind is
    collapsed to single spaces. *)
Theorem clean_text_example :
  remove_urls spec_example = s2l "Check  @bob #great"
  /\ remove_mentions (remove_urls spec_example) = s2l "Check   #great"
  /\ remove_hashes (remove_mentions (remove_urls spec_example))
     = s2l "Check   great"
  /\ clean_text spec_example = s2l "Check great".
Proof. repeat split; reflexivity. Qed.

(** ** The classifier *)

Lemma f0_1_SF : Prim2SF f0_1 = S754_finite false 7205759403792794 (-56).
Proof. reflexivity. Qed.

Lemma fneg0_1_SF : Prim2SF fneg0_1 = S754_finite true 7205759403792794 (-56).
Proof. reflexivity. Qed.

(** A polarity below the negative threshold is not above the positive one. *)
Lemma below_not_above (p : float) :
  (p <? fneg0_1)%float = true -> (f0_1 <? p)%float = false.
Proof.
  rewrite !ltb_spec, f0_1_SF, fneg0_1_SF.
  destruct (Prim2SF p) as [s | s | | s m e]; try destruct s;
    unfold SFltb, SFcompare; intros H;
    first [reflexivity | discriminate H].
Qed.

(** C2: the classifier answers Positive above 0.1, Negative below -0.1 and
    Neutral otherwise; both thresholds themselves are Neutral, and 0.5,
    -0.5 and 0.05 are Positive, Negative and Neutral. *)
Theorem classify_thresholds (p : float) :
  ((f0_1 <? p)%float = true -> classify p = Positive)
  /\ ((p <? fneg0_1)%float = true -> classify p = Negative)
  /\ ((f0_1 <? p)%float = false -> (p <? fneg0_1)%float = false ->
      classify p = Neutral)
  /\ classify 0.5%float = Positive
  /\ classify (- 0.5)%float = Negative
  /\ classify 0x1.999999999999ap-5%float = Neutral
  /\ classify f0_1 = Neutral
  /\ classify fneg0_1 = Neutral.
Proof.
  unfold classify; repeat split; try reflexivity.
  - intros ->; reflexivity.
  - intros H; rewrite (below_not_above p H), H; reflexivity.
  - intros -> ->; reflexivity.
Qed.

(** ** Aggregation *)

Section Aggregates.

Variable np_round : float -> nat -> float.
Variable series_mean : list float -> float.

Lemma count_label_sum (rs : list result) :
  count_label Positive rs + count_label Negative rs + count_label Neutral rs
  = List.length rs.
Proof.
  unfold count_label; induction rs as [| r rs IH]; [reflexivity |].
  cbn [filter]; destruct (sentiment r); cbn [Sentiment_eqb List.length]; lia.
Qed.

(** C6: on an empty collection [get_statistics] returns [None], not a
    statistics value; on a non-empty one it returns a statistics value,
    whose total is the number of records and whose three counts add up to
    it. *)
Theorem get_statistics_absent_or_value (st : analyzer) :
  (results st = [] ->
     fst (get_statistics np_round series_mean st) = Returned None)
  /\ (results st <> [] ->
      exists s, fst (get_statistics np_round series_mean st) = Returned (Some s)
                /\ total s = List.length (results st)
                /\ positive s + negative s + neutral s = total s).
Proof.
  unfold get_statistics, bind, get_results, ret; split; intros H.
  - rewrite H; reflexivity.
  - destruct (results st) as [| r rs] eqn:E; [now elim H |].
    eexists; split; [reflexivity |]; cbn [total positive negative neutral fst].
    split; [reflexivity | apply count_label_sum].
Qed.

(** C10: [get_statistics] and [get_top_words] only read the analyzer: the
    stored collection they leave behind is the one they found. *)
Theorem aggregates_read_only
    (st : analyzer) (sentiment_type : option str) (top_n : Z) :
  snd (get_statistics np_round series_mean st) = st
  /\ snd (get_top_words sentiment_type top_n st) = st.
Proof.
  unfold get_statistics, get_top_words, bind, get_results, ret.
  split; destruct (results st); reflexivity.
Qed.

End Aggregates.

(** ** Batch analysis *)

Section Batch.

Variable score : str -> outcome (float * float).

Lemma analyze_multiple_unfold (texts : list str) (st : analyzer) :
  analyze_multiple score texts st
  = match for_each texts (loop_body score) {| results := [] |} with
    | (Returned _, st') => (Returned (results st'), st')
    | (Raised e, st') => (Raised e, st')
    end.
Proof. reflexivity. Qed.

Lemma loop_body_blank (t : str) (st : analyzer) :
  nonblank t = false -> loop_body score t st = (Returned tt, st).
Proof. unfold loop_body, nonblank; intros ->; reflexivity. Qed.

Lemma loop_body_returned (t : str) (ps : float * float) (acc : list result) :
  nonblank t = true -> score (clean_text t) = Returned ps ->
  loop_body score t {| results := acc |}
  = (Returned tt, {| results := acc ++ [make_result t ps] |}).
Proof.
  unfold loop_body, nonblank, analyze_sentiment, bind, call; intros -> ->.
  reflexivity.
Qed.

Lemma loop_body_raised (t : str) (e : exn) (st : analyzer) :
  nonblank t = true -> score (clean_text t) = Raised e ->
  loop_body score t st = (Raised e, st).
Proof.
  unfold loop_body, nonblank, analyze_sentiment, bind, call; intros -> ->.
  reflexivity.
Qed.

Lemma for_each_cons (t : str) (ts : list str) (st : analyzer) :
  for_each (t :: ts) (loop_body score) st
  = match loop_body score t st with
    | (Returned _, st') => for_each ts (loop_body score) st'
    | (Raised e, st') => (Raised e, st')
    end.
Proof. reflexivity. Qed.

(** While the scorer returns, the loop appends one record per non-blank
    document, in order. *)
Lemma loop_returns (texts : list str) :
  scores_all score texts ->
  forall acc, exists recs,
    for_each texts (loop_body score) {| results := acc |}
    = (Returned tt, {| results := acc ++ recs |})
    /\ Forall2 (analysed score) (filter nonblank texts) recs.
Proof.
  induction texts as [| t ts IH]; intros Hs acc.
  - exists []; rewrite app_nil_r; split; [reflexivity | constructor].
  - assert (Hts : scores_all score ts) by (intros u Hu; apply Hs; now right).
    rewrite for_each_cons; cbn [filter].
    destruct (nonblank t) eqn:Hb.
    + destruct (Hs t (or_introl eq_refl) Hb) as [ps Hps].
      rewrite (loop_body_returned t ps acc Hb Hps).
      destruct (IH Hts (acc ++ [make_result t ps])) as [recs [E F]].
      exists (make_result t ps :: recs); rewrite E, <- app_assoc.
      split; [reflexivity |].
      constructor; [exists ps; now split | exact F].
    + rewrite (loop_body_blank t _ Hb).
      destruct (IH Hts acc) as [recs [E F]]; exists recs; now split.
Qed.

(** When the scorer raises on a non-blank document, the loop stops there:
    the exception leaves the loop and the records appended so far stay. *)
Lemma loop_raises (pre : list str) (t : str) (post : list str) (e : exn) :
  scores_all score pre -> nonblank t = true -> score (clean_text t) = Raised e ->
  forall acc, exists recs,
    for_each (pre ++ t :: post) (loop_body score) {| results := acc |}
    = (Raised e, {| results := acc ++ recs |})
    /\ Forall2 (analysed score) (filter nonblank pre) recs.
Proof.
  intros Hs Hb He; induction pre as [| u us IH]; intros acc.
  - exists []; rewrite app_nil_r; cbn [app filter].
    rewrite for_each_cons, (loop_body_raised t e _ Hb He).
    split; [reflexivity | constructor].
  - assert (Hus : scores_all score us) by (intros v Hv; apply Hs; now right).
    cbn [app filter]; rewrite for_each_cons.
    destruct (nonblank u) eqn:Hu.
    + destruct (Hs u (or_introl eq_refl) Hu) as [ps Hps].
      rewrite (loop_body_returned u ps acc Hu Hps).
      destruct (IH Hus (acc ++ [make_result u ps])) as [recs [E F]].
      exists (make_result u ps :: recs); rewrite E, <- app_assoc.
      split; [reflexivity |].
      constructor; [exists ps; now split | exact F].
    + rewrite (loop_body_blank u _ Hu).
      destruct (IH Hus acc) as [recs [E F]]; exists recs; now split.
Qed.

(** Whatever the scorer does, a loop that ends normally has appended one
    record per non-blank document. *)
Lemma loop_returned_inv (texts : list str) :
  forall acc st',
    for_each texts (loop_body score) {| results := acc |} = (Returned tt, st') ->
    exists recs, st' = {| results := acc ++ recs |}
                 /\ Forall2 (analysed score) (filter nonblank texts) recs.
Proof.
  induction texts as [| t ts IH]; intros acc st' H.
  - exists []; rewrite app_nil_r; split; [now inversion H | constructor].
  - rewrite for_each_cons in H; cbn [filter].
    destruct (nonblank t) eqn:Hb.
    + destruct (score (clean_text t)) as [ps | e] eqn:Hps.
      * rewrite (loop_body_returned t ps acc Hb Hps) in H.
        destruct (IH _ _ H) as [recs [E F]].
        exists (make_result t ps :: recs); rewrite E, <- app_assoc.
        split; [reflexivity |].
        constructor; [exists ps; now split | exact F].
      * rewrite (loop_body_raised t e _ Hb Hps) in H; discriminate H.
    + rewrite (loop_body_blank t _ Hb) in H.
      destruct (IH _ _ H) as [recs [E F]]; exists recs; now split.
Qed.

Lemma analysed_texts (ts : list str) (rs : list result) :
  Forall2 (analysed score) ts rs -> map text rs = ts.
Proof.
  induction 1 as [| t r ts rs [ps [_ ->]] _ IH]; [reflexivity |].
  cbn [map]; rewrite IH; reflexivity.
Qed.

(** C1: with a scorer that returns on the documents of the batch,
    [analyze_multiple] returns one record per document that is non-empty
    after stripping, in the order of the input, each the analysis of its
    document; the collection it stores is the one it returns, whatever
    was stored before. *)
Theorem analyze_multiple_records (texts : list str) :
  scores_all score texts ->
  exists rs,
    (forall st, analyze_multiple score texts st
                = (Returned rs, {| results := rs |}))
    /\ List.length rs = List.length (filter nonblank texts)
    /\ map text rs = filter nonblank texts
    /\ Forall2 (analysed score) (filter nonblank texts) rs.
Proof.
  intros Hs; destruct (loop_returns texts Hs []) as [rs [E F]]; exists rs.
  split; [| split; [| split]].
  - intros st; rewrite analyze_multiple_unfold, E; reflexivity.
  - symmetry; exact (Forall2_length F).
  - exact (analysed_texts _ _ F).
  - exact F.
Qed.

(** C4, amended: in every record [analyze_multiple] stores, the sentiment
    is the classifier applied to the polarity the scorer returned for the
    cleaned text, and the stored polarity is that polarity rounded to
    three decimals. *)
Theorem sentiment_of_scored_polarity
    (texts : list str) (st st' : analyzer) (rs : list result) :
  analyze_multiple score texts st = (Returned rs, st') ->
  results st' = rs
  /\ Forall (fun r =>
       cleaned_text r = clean_text (text r)
       /\ exists p s, score (cleaned_text r) = Returned (p, s)
                      /\ sentiment r = classify p
                      /\ polarity r = py_round3 p) rs.
Proof.
  rewrite analyze_multiple_unfold.
  destruct (for_each texts (loop_body score) {| results := [] |}) as [[[] | e] st1] eqn:E;
    [| discriminate].
  intros H; inversion H; subst; split; [reflexivity |].
  destruct (loop_returned_inv _ _ _ E) as [recs [-> F]]; cbn [results app].
  clear E H; induction F as [| t r ts rs' [[p s] [Hps ->]] _ IH]; constructor.
  - split; [reflexivity |]; exists p, s; cbn; now rewrite Hps.
  - exact IH.
Qed.

(** C5, amended: when the scorer raises on a non-blank document, the
    exception leaves [analyze_multiple] and the stored collection holds
    the records of the non-blank documents before that one, whatever was
    stored before the call. *)
Theorem analyze_multiple_raises
    (pre : list str) (t : str) (post : list str) (e : exn) (st : analyzer) :
  scores_all score pre -> nonblank t = true -> score (clean_text t) = Raised e ->
  exists rs,
    analyze_multiple score (pre ++ t :: post) st
    = (Raised e, {| results := rs |})
    /\ map text rs = filter nonblank pre
    /\ Forall2 (analysed score) (filter nonblank pre) rs.
Proof.
  intros Hs Hb He; destruct (loop_raises pre t post e Hs Hb He []) as [rs [E F]].
  exists rs; rewrite analyze_multiple_unfold, E.
  split; [reflexivity | split; [exact (analysed_texts _ _ F) | exact F]].
Qed.

End Batch.

(** *** Concrete runs *)

Lemma demo_scores_all : scores_all demo_score [s2l "good"; s2l "  "; s2l "fine"].
Proof.
  intros t [<- | [<- | [<- | []]]] _; eexists; reflexivity.
Defined.

Lemma analyze_multiple_records_witness :
  exists rs,
    (forall st, analyze_multiple demo_score [s2l "good"; s2l "  "; s2l "fine"] st
                = (Returned rs, {| results := rs |}))
    /\ List.length rs = 2
    /\ map text rs = [s2l "good"; s2l "fine"]
    /\ Forall2 (analysed demo_score) [s2l "good"; s2l "fine"] rs.
Proof.
  exact (analyze_multiple_records demo_score
           [s2l "good"; s2l "  "; s2l "fine"] demo_scores_all).
Defined.

(** C4 as stated fails: a polarity of 0.1004 is classified Positive and
    stored as 0.1, which the classifier calls Neutral. *)
Lemma stored_polarity_misclassified :
  ~ (forall (score : str -> outcome (float * float)) texts st rs st',
       analyze_multiple score texts st = (Returned rs, st') ->
       Forall (fun r => sentiment r = classify (polarity r)) (results st')).
Proof.
  intros H.
  specialize (H demo_score [s2l "fine"] {| results := [] |} _ _ eq_refl).
  vm_compute in H.
  inversion H as [| r rs H1 _]; discriminate H1.
Qed.

Lemma sentiment_of_scored_polarity_witness :
  exists rs st',
    analyze_multiple demo_score [s2l "good"; s2l "fine"] {| results := [demo_old] |}
    = (Returned rs, st')
    /\ results st' = rs
    /\ Forall (fun r =>
         cleaned_text r = clean_text (text r)
         /\ exists p s, demo_score (cleaned_text r) = Returned (p, s)
                        /\ sentiment r = classify p
                        /\ polarity r = py_round3 p) rs.
Proof.
  eexists; eexists; split; [reflexivity |].
  exact (sentiment_of_scored_polarity demo_score
           [s2l "good"; s2l "fine"] {| results := [demo_old] |} _ _ eq_refl).
Defined.

(** C5 as stated fails: a batch whose second document makes the scorer
    raise leaves the analyzer with the record of the first document only,
    neither the collection stored before nor a complete one. *)
Lemma failed_batch_loses_prior :
  ~ (forall (score : str -> outcome (float * float)) texts st e st',
       analyze_multiple score texts st = (Raised e, st') -> st' = st).
Proof.
  intros H.
  specialize (H demo_score [s2l "good"; s2l "bad"; s2l "fine"]
                {| results := [demo_old] |} _ _ eq_refl).
  vm_compute in H; discriminate H.
Qed.

Example failed_batch_partial :
  analyze_multiple demo_score [s2l "good"; s2l "bad"; s2l "fine"]
    {| results := [demo_old] |}
  = (Raised "scoring failed"%string,
     {| results := [make_result (s2l "good") (0.5, 0.75)%float] |}).
Proof. reflexivity. Qed.

Lemma demo_scores_pre : scores_all demo_score [s2l "good"; s2l " "].
Proof.
  intros t [<- | [<- | []]] _; eexists; reflexivity.
Defined.

Lemma analyze_multiple_raises_witness :
  exists rs,
    analyze_multiple demo_score ([s2l "good"; s2l " "] ++ s2l "bad" :: [s2l "fine"])
      {| results := [demo_old] |}
    = (Raised "scoring failed"%string, {| results := rs |})
    /\ map text rs = [s2l "good"]
    /\ Forall2 (analysed demo_score) [s2l "good"] rs.
Proof.
  exact (analyze_multiple_raises demo_score [s2l "good"; s2l " "] (s2l "bad")
           [s2l "fine"] "scoring failed"%string {| results := [demo_old] |}
           demo_scores_pre eq_refl eq_refl).
Defined.

(** ** Keyword ranking *)

Lemma str_eqb_eq (a b : str) : str_eqb a b = true <-> a = b.
Proof.
  unfold str_eqb; destruct (list_eq_dec ascii_dec a b); split;
    congruence.
Qed.

Lemma str_eqb_refl (a : str) : str_eqb a a = true.
Proof. now apply str_eqb_eq. Qed.

Lemma str_eqb_neq (a b : str) : str_eqb a b = false <-> a <> b.
Proof.
  unfold str_eqb; destruct (list_eq_dec ascii_dec a b); split;
    congruence.
Qed.

Lemma str_in_In (w : str) (l : list str) : str_in w l = true <-> In w l.
Proof.
  unfold str_in; rewrite existsb_exists; split.
  - intros [x [Hx E]]; apply str_eqb_eq in E; now subst.
  - intros H; exists w; split; [exact H | apply str_eqb_refl].
Qed.

Lemma lower_length (w : str) : List.length (lower w) = List.length w.
Proof. apply length_map. Qed.

(** The counted words are the lower-cased tokens that pass the test. *)
Lemma top_word_list_filter (t : str) :
  top_word_list t = filter keeps (map lower (split_ws t)).
Proof.
  unfold top_word_list; induction (split_ws t) as [| w ws IH];
    [reflexivity |].
  cbn [filter map]; unfold keeps at 1; rewrite lower_length.
  destruct ((2 <? List.length w) && negb (str_in (lower w) stopwords));
    cbn [map]; now rewrite IH.
Qed.

Lemma top_word_list_keeps (t w : str) :
  In w (top_word_list t) -> keeps w = true.
Proof. rewrite top_word_list_filter, filter_In; now intros [_ H]. Qed.

(** *** The counter *)

Lemma counter_incr_keys_in (w : str) (c : list (str * nat)) :
  In w (keys c) -> keys (counter_incr w c) = keys c.
Proof.
  induction c as [| [k n] c IH]; [cbn; tauto |]; intros H.
  cbn [counter_incr]; destruct (str_eqb k w) eqn:E; [reflexivity |].
  unfold keys in *; cbn [map fst] in *; f_equal; apply IH.
  destruct H as [-> | H]; [| exact H].
  rewrite str_eqb_refl in E; discriminate E.
Qed.

Lemma counter_incr_keys_new (w : str) (c : list (str * nat)) :
  ~ In w (keys c) -> counter_incr w c = c ++ [(w, 1)].
Proof.
  induction c as [| [k n] c IH]; cbn; [reflexivity |]; intros H.
  destruct (str_eqb k w) eqn:E.
  - apply str_eqb_eq in E; tauto.
  - rewrite IH; [reflexivity | tauto].
Qed.

(** What an entry of the incremented counter was before. *)
Lemma counter_incr_In (w k : str) (n : nat) (c : list (str * nat)) :
  NoDup (keys c) -> In (k, n) (counter_incr w c) ->
  (k <> w /\ In (k, n) c)
  \/ (k = w /\ ((exists m, In (w, m) c /\ n = S m)
                \/ (~ In w (keys c) /\ n = 1))).
Proof.
  induction c as [| [k0 n0] c IH]; cbn; intros Hnd H.
  - destruct H as [H | []]; inversion H; subst; right; split; [reflexivity |].
    right; split; [tauto | reflexivity].
  - inversion Hnd as [| ? ? Hk0 Hc]; subst.
    destruct (str_eqb k0 w) eqn:E.
    + apply str_eqb_eq in E; subst k0; destruct H as [H | H].
      * inversion H; subst; right; split; [reflexivity |].
        left; exists n0; split; [now left | reflexivity].
      * left; split; [| now right].
        intros ->; apply Hk0; apply (in_map fst _ _ H).
    + apply str_eqb_neq in E; destruct H as [H | H].
      * inversion H; subst; left; split; [exact E | now left].
      * destruct (IH Hc H) as [[Hk Hin] | [-> [[m [Hin ->]] | [Hn ->]]]].
        -- left; split; [exact Hk | now right].
        -- right; split; [reflexivity |]; left; exists m; split;
             [now right | reflexivity].
        -- right; split; [reflexivity |]; right; split; [| reflexivity].
           intros [E' | H']; [now apply E | now apply Hn].
Qed.

Lemma Counter_snoc (ws : list str) (w : str) :
  Counter (ws ++ [w]) = counter_incr w (Counter ws).
Proof. unfold Counter; now rewrite fold_left_app. Qed.

Lemma occurrences_snoc (k w : str) (ws : list str) :
  occurrences k (ws ++ [w])
  = occurrences k ws + (if str_eqb w k then 1 else 0).
Proof.
  unfold occurrences, str_eqb; rewrite count_occ_app; cbn.
  destruct (list_eq_dec ascii_dec w k); reflexivity.
Qed.

Lemma first_index_le (w : str) (l : list str) : first_index w l <= List.length l.
Proof.
  induction l as [| x l IH]; cbn; [lia |]; destruct (str_eqb x w); lia.
Qed.

Lemma first_index_In (w : str) (l : list str) :
  In w l <-> first_index w l < List.length l.
Proof.
  induction l as [| x l IH]; cbn; [split; [tauto | lia] |].
  destruct (str_eqb x w) eqn:E.
  - apply str_eqb_eq in E; split; [lia | now left].
  - apply str_eqb_neq in E; rewrite IH; split; [intros [? | ?]; [tauto | lia] |].
    intros H; right; lia.
Qed.

Lemma first_index_app_In (w : str) (l l' : list str) :
  In w l -> first_index w (l ++ l') = first_index w l.
Proof.
  induction l as [| x l IH]; cbn; [tauto |].
  destruct (str_eqb x w) eqn:E; [reflexivity |].
  apply str_eqb_neq in E; intros [? | H]; [tauto | now rewrite IH].
Qed.

Lemma first_index_snoc_new (w : str) (l : list str) :
  ~ In w l -> first_index w (l ++ [w]) = List.length l.
Proof.
  induction l as [| x l IH]; cbn; intros H.
  - now rewrite str_eqb_refl.
  - destruct (str_eqb x w) eqn:E.
    + apply str_eqb_eq in E; tauto.
    + rewrite IH; [reflexivity | tauto].
Qed.

Lemma StronglySorted_snoc {A} (R : A -> A -> Prop) (l : list A) (x : A) :
  StronglySorted R l -> Forall (fun a => R a x) l ->
  StronglySorted R (l ++ [x]).
Proof.
  induction 1 as [| a l Hs IH Ha]; intros Hx; cbn.
  - repeat constructor.
  - inversion Hx; subst; constructor; [now apply IH |].
    apply Forall_app; split; [exact Ha | now repeat constructor].
Qed.

Lemma StronglySorted_ext_in {A} (R R' : A -> A -> Prop) (l : list A) :
  (forall a b, In a l -> In b l -> R a b -> R' a b) ->
  StronglySorted R l -> StronglySorted R' l.
Proof.
  intros H Hs; induction Hs as [| a l Hs IH Ha]; constructor.
  - apply IH; intros x y Hx Hy; apply H; now right.
  - rewrite Forall_forall in *; intros b Hb.
    apply H; [now left | now right | now apply Ha].
Qed.

Lemma Counter_spec (words : list str) : counter_of words (Counter words).
Proof.
  induction words as [| w ws IH] using rev_ind.
  - split; cbn; try tauto; constructor.
  - rewrite Counter_snoc; destruct IH as [Hnd Hk Hc Ho].
    destruct (in_dec (list_eq_dec ascii_dec) w (keys (Counter ws))) as [Hin | Hnew].
    + (* a word seen before: its count goes up, the keys stay *)
      split.
      * now rewrite counter_incr_keys_in.
      * intros k; rewrite counter_incr_keys_in, in_app_iff, <- Hk by exact Hin.
        cbn; split; [intros [? | [<- | []]]; [assumption | now apply Hk] | tauto].
      * intros k n H; rewrite occurrences_snoc.
        destruct (counter_incr_In _ _ _ _ Hnd H)
          as [[Hkw Hin'] | [-> [[m [Hin' ->]] | [Hn _]]]].
        -- apply not_eq_sym, str_eqb_neq in Hkw; rewrite Hkw, (Hc _ _ Hin'); lia.
        -- rewrite str_eqb_refl, (Hc _ _ Hin'); lia.
        -- tauto.
      * rewrite counter_incr_keys_in by exact Hin.
        apply StronglySorted_ext_in with (2 := Ho); intros a b Ha Hb.
        rewrite !first_index_app_In by now apply Hk. tauto.
    + (* a new word: it goes last with count one *)
      rewrite (counter_incr_keys_new _ _ Hnew).
      assert (Hw : ~ In w ws) by now rewrite Hk.
      split; unfold keys in *.
      * rewrite map_app; cbn; apply NoDup_app; repeat split.
        -- exact Hnd.
        -- repeat constructor; tauto.
        -- intros a Ha [<- | []]; tauto.
      * intros k; rewrite map_app, !in_app_iff, <- Hk; cbn; tauto.
      * intros k n H; rewrite occurrences_snoc.
        apply in_app_iff in H; destruct H as [H | [H | []]].
        -- rewrite (Hc _ _ H).
           assert (k <> w).
           { intros ->; apply Hnew; apply (in_map fst _ _ H). }
           apply not_eq_sym, str_eqb_neq in H0; rewrite H0; lia.
        -- inversion H; subst; rewrite str_eqb_refl.
           unfold occurrences; rewrite (proj1 (count_occ_not_In _ _ _) Hw); lia.
      * unfold in_first_order; rewrite map_app; cbn.
        apply StronglySorted_snoc.
        -- apply StronglySorted_ext_in with (2 := Ho); intros a b Ha Hb.
           rewrite !first_index_app_In by now apply Hk. tauto.
        -- rewrite Forall_forall; intros a Ha.
           rewrite first_index_snoc_new by exact Hw.
           rewrite first_index_app_In by now apply Hk.
           now apply first_index_In, Hk.
Qed.

(** *** The ranking *)

Lemma insert_desc_In (x y : str * nat) (l : list (str * nat)) :
  In y (insert_desc x l) <-> y = x \/ In y l.
Proof.
  induction l as [| z l IH]; cbn; [intuition congruence |].
  destruct (snd z <=? snd x); cbn; [intuition congruence |].
  rewrite IH; tauto.
Qed.

Lemma sorted_desc_In (y : str * nat) (l : list (str * nat)) :
  In y (sorted_desc l) <-> In y l.
Proof.
  induction l as [| x l IH]; cbn; [tauto |].
  rewrite insert_desc_In, IH; intuition congruence.
Qed.

Lemma ranked_before_count (words : list str) (a b : str * nat) :
  ranked_before words a b -> snd b <= snd a.
Proof. unfold ranked_before; lia. Qed.

(** Inserting an entry that came before all of [s] keeps [s] ranked. *)
Lemma insert_desc_ranked (words : list str) (x : str * nat) (s : list (str * nat)) :
  StronglySorted (ranked_before words) s ->
  Forall (fun y => first_index (fst x) words < first_index (fst y) words) s ->
  StronglySorted (ranked_before words) (insert_desc x s).
Proof.
  induction 1 as [| y s Hs IH Hy]; intros Hx; cbn.
  - repeat constructor.
  - inversion Hx as [| ? ? Hxy Hxs]; subst.
    destruct (snd y <=? snd x) eqn:E.
    + apply Nat.leb_le in E; constructor; [now constructor |].
      constructor.
      * unfold ranked_before; lia.
      * rewrite Forall_forall in *; intros z Hz.
        specialize (Hy z Hz); specialize (Hxs z Hz).
        apply ranked_before_count in Hy; unfold ranked_before; lia.
    + apply Nat.leb_gt in E; constructor; [now apply IH |].
      rewrite Forall_forall in *; intros z Hz.
      apply insert_desc_In in Hz; destruct Hz as [-> | Hz]; [| now apply Hy].
      unfold ranked_before; lia.
Qed.

Lemma sorted_desc_In_inv (y : str * nat) (l : list (str * nat)) :
  In y (sorted_desc l) -> In y l.
Proof. apply sorted_desc_In. Qed.

Lemma sorted_desc_ranked (words : list str) (l : list (str * nat)) :
  in_first_order words (keys l) ->
  StronglySorted (ranked_before words) (sorted_desc l).
Proof.
  unfold in_first_order, keys; induction l as [| x l IH]; cbn; intros H.
  - constructor.
  - inversion H as [| ? ? Hl Hx]; subst.
    apply insert_desc_ranked; [now apply IH |].
    rewrite Forall_forall in *; intros y Hy.
    apply Hx, in_map, sorted_desc_In, Hy.
Qed.

Lemma StronglySorted_app_inv {A} (R : A -> A -> Prop) (l l' : list A) :
  StronglySorted R (l ++ l') ->
  StronglySorted R l /\ forall a b, In a l -> In b l' -> R a b.
Proof.
  induction l as [| x l IH]; cbn; intros H.
  - split; [constructor | intros a b []].
  - inversion H as [| ? ? Hs Hx]; subst; destruct (IH Hs) as [Hl Hll'].
    apply Forall_app in Hx; destruct Hx as [Hx Hx'].
    split; [now constructor |].
    intros a b [<- | Ha] Hb; [| now apply Hll'].
    rewrite Forall_forall in Hx'; now apply Hx'.
Qed.

Lemma insert_desc_keys_nodup (x : str * nat) (l : list (str * nat)) :
  NoDup (keys (x :: l)) -> NoDup (keys (insert_desc x l)).
Proof.
  unfold keys; induction l as [| z l IH]; cbn; intros H; [exact H |].
  destruct (snd z <=? snd x); [exact H |]; cbn.
  inversion H as [| ? ? Hx Hzl]; inversion Hzl as [| ? ? Hz Hl]; subst.
  assert (Hp : NoDup (fst x :: map fst l)).
  { constructor; [| exact Hl]; intros Hin; apply Hx; now right. }
  specialize (IH Hp); constructor; [| exact IH].
  intros Hin; apply in_map_iff in Hin; destruct Hin as [y [Ey Hy]].
  apply insert_desc_In in Hy; destruct Hy as [-> | Hy].
  - apply Hx; left; exact (eq_sym Ey).
  - apply Hz; rewrite <- Ey; now apply in_map.
Qed.

Lemma sorted_desc_keys_nodup (l : list (str * nat)) :
  NoDup (keys l) -> NoDup (keys (sorted_desc l)).
Proof.
  unfold keys; induction l as [| x l IH]; cbn [map sorted_desc fold_right];
    intros H; [constructor |].
  inversion H as [| ? ? Hx Hl]; subst.
  apply insert_desc_keys_nodup; unfold keys; cbn [map].
  constructor; [| exact (IH Hl)].
  intros Hin; apply Hx; apply in_map_iff in Hin; destruct Hin as [y [Ey Hy]].
  apply (sorted_desc_In y l) in Hy; rewrite <- Ey; now apply in_map.
Qed.

Lemma In_firstn {A} (k : nat) (x : A) (l : list A) :
  In x (firstn k l) -> In x l.
Proof.
  intros H; rewrite <- (firstn_skipn k l); apply in_app_iff; now left.
Qed.

Lemma NoDup_firstn {A} (k : nat) (l : list A) : NoDup l -> NoDup (firstn k l).
Proof.
  intros H; rewrite <- (firstn_skipn k l) in H; now apply NoDup_app_remove_r in H.
Qed.

(** *** Tokens and counted words *)

Lemma first_index_filter (P : str -> bool) (u v : str) (l : list str) :
  P u = true -> P v = true ->
  (first_index u (filter P l) < first_index v (filter P l)
   <-> first_index u l < first_index v l).
Proof.
  intros Hu Hv; induction l as [| x l IH]; cbn; [tauto |].
  destruct (P x) eqn:Px; cbn.
  - destruct (str_eqb x u), (str_eqb x v); lia.
  - assert (Eu : str_eqb x u = false) by (apply str_eqb_neq; congruence).
    assert (Ev : str_eqb x v = false) by (apply str_eqb_neq; congruence).
    rewrite Eu, Ev; lia.
Qed.

Lemma occurrences_filter (P : str -> bool) (w : str) (l : list str) :
  P w = true -> occurrences w (filter P l) = occurrences w l.
Proof.
  unfold occurrences; intros Hw; induction l as [| x l IH]; cbn; [reflexivity |].
  destruct (P x) eqn:Px; cbn; destruct (list_eq_dec ascii_dec x w); congruence.
Qed.

(** *** [get_top_words] *)

(** The early return on an empty collection agrees with the general path. *)
Lemma get_top_words_value (st : analyzer) (ty : option str) (n : Z) :
  get_top_words ty n st
  = (Returned (most_common n (Counter (top_word_list
       (all_cleaned_text (select_sentiment ty (results st)))))), st).
Proof.
  unfold get_top_words, bind, get_results, ret.
  destruct (results st) as [| r rs]; [| reflexivity].
  assert (E : select_sentiment ty [] = []).
  { destruct ty as [s |]; cbn; [destruct (truthy s) |]; reflexivity. }
  rewrite E; unfold most_common; cbn; now rewrite firstn_nil.
Qed.

Lemma most_common_In (n : Z) (x : str * nat) (c : list (str * nat)) :
  In x (most_common n c) -> In x c.
Proof. unfold most_common; intros H; apply In_firstn in H; now apply sorted_desc_In_inv. Qed.

Lemma Counter_In_words (words : list str) (w : str) (c : nat) :
  In (w, c) (Counter words) -> In w words.
Proof.
  intros H; apply (co_keys _ _ (Counter_spec words)); exact (in_map fst _ _ H).
Qed.

(** C7: no pair returned by [get_top_words] has a word of two characters
    or fewer, or a word of the stopword list. *)
Theorem top_words_exclusions
    (st : analyzer) (sentiment_type : option str) (top_n : Z)
    (res : list (str * nat)) (w : str) (c : nat) :
  fst (get_top_words sentiment_type top_n st) = Returned res ->
  In (w, c) res ->
  2 < List.length w /\ ~ In w stopwords.
Proof.
  rewrite get_top_words_value; cbn [fst]; intros E H.
  inversion E; subst res; clear E.
  apply most_common_In, Counter_In_words, top_word_list_keeps in H.
  unfold keeps in H; apply andb_true_iff in H; destruct H as [Hl Hs].
  apply Nat.ltb_lt in Hl; split; [exact Hl |].
  intros Hin; apply str_in_In in Hin; rewrite Hin in Hs; discriminate Hs.
Qed.

Lemma insert_desc_length (x : str * nat) (l : list (str * nat)) :
  List.length (insert_desc x l) = S (List.length l).
Proof.
  induction l as [| y l IH]; [reflexivity |].
  cbn [insert_desc]; destruct (snd y <=? snd x); cbn [List.length]; congruence.
Qed.

Lemma sorted_desc_length (l : list (str * nat)) :
  List.length (sorted_desc l) = List.length l.
Proof.
  induction l as [| x l IH]; [reflexivity |].
  cbn [sorted_desc fold_right]; rewrite insert_desc_length.
  cbn [List.length]; f_equal; exact IH.
Qed.

Lemma filter_all {A} (l : list A) : filter (fun _ => true) l = l.
Proof. induction l as [| x l IH]; [reflexivity | cbn; now rewrite IH]. Qed.

(** The filter of [get_top_words] keeps the records that pass it. *)
Lemma select_sentiment_passes (ty : option str) (rs : list result) :
  select_sentiment ty rs = filter (passes ty) rs.
Proof.
  destruct ty as [[| c s] |]; cbn [select_sentiment truthy passes];
    [symmetry; apply filter_all | reflexivity | symmetry; apply filter_all].
Qed.

Lemma Counter_length_distinct (words : list str) :
  List.length (Counter words) = List.length (distinct words).
Proof.
  pose proof (Counter_spec words) as [Hnd Hk _ _].
  unfold keys, distinct in *; rewrite <- (length_map fst (Counter words)).
  apply Nat.le_antisymm; apply NoDup_incl_length;
    try exact Hnd; try apply NoDup_nodup; intros w Hw.
  - apply nodup_In; now apply Hk.
  - apply Hk; now apply nodup_In in Hw.
Qed.

(** What [get_top_words] returns, from the stored records. *)
Lemma get_top_words_counted (st : analyzer) (ty : option str) (n : Z) :
  get_top_words ty n st
  = (Returned (most_common n (Counter (counted_words
       (join (s2l " ") (map cleaned_text (filter (passes ty) (results st))))))),
     st).
Proof. rewrite get_top_words_value, select_sentiment_passes; reflexivity. Qed.

(** C8: [get_top_words] returns the top [top_n] pairs.  The words counted
    are the tokens of the concatenated cleaned texts of the records that
    pass the filter, longer than two characters and not stopwords,
    lower-cased.  The result has one pair for each of the first [top_n]
    distinct words of the ranking (none when [top_n] is not positive, all
    when there are fewer), each with the number of its occurrences, in
    descending order of count with equal counts in the order of their first
    occurrences in the text; every counted word left out is ranked after
    every pair returned; and the result is empty when no record passes the
    filter or no token is counted. *)
Theorem get_top_words_ranking
    (st : analyzer) (sentiment_type : option str) (top_n : Z) :
  let df := filter (passes sentiment_type) (results st) in
  let words := counted_words (join (s2l " ") (map cleaned_text df)) in
  exists res,
    get_top_words sentiment_type top_n st = (Returned res, st)
    /\ (Z.of_nat (List.length res) <= Z.max 0 top_n)%Z
    /\ List.length res
       = Nat.min (Z.to_nat top_n) (List.length (distinct words))
    /\ StronglySorted (ranked_before words) res
    /\ NoDup (map fst res)
    /\ (forall w c, In (w, c) res -> c = occurrences w words /\ 0 < c)
    /\ (forall w, In w words ->
          In (w, occurrences w words) res
          \/ forall x, In x res ->
               ranked_before words x (w, occurrences w words))
    /\ (df = [] -> res = [])
    /\ (words = [] -> res = []).
Proof.
  intros df words; eexists; split; [apply get_top_words_counted |].
  fold df; fold words.
  pose proof (Counter_spec words) as [Hnd Hk Hc Ho].
  assert (Hsorted : StronglySorted (ranked_before words)
                      (sorted_desc (Counter words)))
    by now apply sorted_desc_ranked.
  unfold most_common; set (k := Z.to_nat top_n).
  repeat split.
  - pose proof (firstn_le_length k (sorted_desc (Counter words))); lia.
  - now rewrite length_firstn, sorted_desc_length, Counter_length_distinct.
  - rewrite <- (firstn_skipn k (sorted_desc (Counter words))) in Hsorted.
    now apply StronglySorted_app_inv in Hsorted.
  - rewrite <- firstn_map; apply NoDup_firstn.
    exact (sorted_desc_keys_nodup _ Hnd).
  - apply In_firstn, sorted_desc_In_inv in H; exact (Hc _ _ H).
  - apply In_firstn, sorted_desc_In_inv in H.
    assert (Hw : In w words) by (apply Hk; exact (in_map fst _ _ H)).
    rewrite (Hc _ _ H); unfold occurrences.
    now apply count_occ_In.
  - intros w Hw.
    apply Hk, in_map_iff in Hw; destruct Hw as [[w' c] [Ew Hin]].
    cbn in Ew; subst w'; rewrite <- (Hc _ _ Hin).
    apply (proj2 (sorted_desc_In _ _)) in Hin.
    rewrite <- (firstn_skipn k (sorted_desc (Counter words))) in Hin, Hsorted.
    apply in_app_iff in Hin; destruct Hin as [Hin | Hin]; [now left | right].
    apply StronglySorted_app_inv in Hsorted; destruct Hsorted as [_ Hcross].
    intros x Hx; now apply Hcross.
  - intros Hdf; subst words; rewrite Hdf; cbn; apply firstn_nil.
  - intros Hnone; rewrite Hnone; cbn; apply firstn_nil.
Qed.

Lemma top_words_exclusions_witness :
  2 < List.length (s2l "great") /\ ~ In (s2l "great") stopwords.
Proof.
  exact (top_words_exclusions
           {| results := [make_result (s2l "Great product great service") (0.5, 0.75)%float;
                          make_result (s2l "great") (0.5, 0.75)%float] |}
           None 10 _ (s2l "great") 3 eq_refl (or_introl eq_refl)).
Defined.

Example get_top_words_great :
  fst (get_top_words None 10
         {| results := [make_result (s2l "Great product great service") (0.5, 0.75)%float;
                        make_result (s2l "the great") (0.5, 0.75)%float] |})
  = Returned [(s2l "great", 3); (s2l "product", 1); (s2l "service", 1)].
Proof. reflexivity. Qed.

Example get_top_words_no_match :
  fst (get_top_words (Some (s2l "Negative")) 10
         {| results := [make_result (s2l "great") (0.5, 0.75)%float] |})
  = Returned [].
Proof. reflexivity. Qed.

(** ** Cleaning twice *)


Example clean_text_hash_in_url :
  clean_text (s2l "ht#tp://x.co") = s2l "http://x.co"
  /\ clean_text (s2l "http://x.co") = [].
Proof. split; reflexivity. Qed.

(** *** Texts without a match *)

Lemma re_sub_free (m : str -> option nat) (t : str) :
  free m t -> re_sub m t = t.
Proof.
  unfold re_sub; induction t as [| c t IH]; [reflexivity |].
  intros [H F]; cbn [re_sub_go]; rewrite H, (IH F); reflexivity.
Qed.

Lemma free_skipn (m : str -> option nat) (k : nat) (t : str) :
  free m t -> free m (skipn k t).
Proof.
  revert t; induction k as [| k IH]; intros [| c t]; cbn [skipn]; try tauto.
  intros [_ F]; now apply IH.
Qed.

Lemma re_sub_go_skip (m : str -> option nat) (k : nat) (t : str) :
  re_sub_go m k t = re_sub_go m 0 (skipn k t).
Proof.
  revert k; induction t as [| c t IH]; intros [| k]; try reflexivity.
  cbn [re_sub_go skipn]; apply IH.
Qed.

(** *** Literals and greedy repetitions *)

Lemma lit_Some (p t r : str) : lit p t = Some r <-> t = p ++ r.
Proof.
  revert t; induction p as [| a p IH]; intros t; cbn.
  - split; congruence.
  - destruct t as [| b t]; [split; congruence |].
    destruct (Ascii.eqb_spec a b) as [-> | N].
    + rewrite IH; split; congruence.
    + split; congruence.
Qed.

Lemma span_app_all (cls : ascii -> bool) (l r : str) :
  Forall (fun a => cls a = true) l ->
  span cls (l ++ r) = List.length l + span cls r.
Proof.
  induction 1 as [| a l Ha _ IH]; cbn; [reflexivity |].
  now rewrite Ha, IH.
Qed.

Lemma span_S (cls : ascii -> bool) (r : str) (k : nat) :
  span cls r = S k ->
  exists x r', r = x :: r' /\ cls x = true /\ span cls r' = k.
Proof.
  destruct r as [| x r]; cbn; [discriminate |].
  destruct (cls x) eqn:E; [| discriminate].
  intros H; exists x, r; repeat split; congruence.
Qed.

(** Behind a greedy repetition of [cls] comes the end of the text or a
    character outside [cls]. *)
Lemma skipn_span (cls : ascii -> bool) (r : str) :
  match skipn (span cls r) r with
  | [] => True
  | c :: _ => cls c = false
  end.
Proof.
  induction r as [| x r IH]; cbn; [exact I |].
  destruct (cls x) eqn:E; cbn; [exact IH | exact E].
Qed.

Lemma lit_plus_starts (l : str) (cls : ascii -> bool) (t : str) :
  lit_plus l cls t <> None <-> starts l cls t.
Proof.
  unfold lit_plus, starts; split.
  - destruct (lit l t) as [r |] eqn:E; [| congruence].
    apply lit_Some in E; subst t.
    destruct (span cls r) as [| k] eqn:Es; [congruence |]; intros _.
    apply span_S in Es; destruct Es as [x [r' [-> [Hx _]]]]; now exists x, r'.
  - intros [x [r [Hx ->]]].
    rewrite (proj2 (lit_Some l (l ++ x :: r) (x :: r)) eq_refl); cbn.
    rewrite Hx; discriminate.
Qed.

Lemma lit_plus_span (l : str) (cls : ascii -> bool) (t : str) (n : nat) :
  Forall (fun a => cls a = true) l ->
  lit_plus l cls t = Some n -> n = span cls t /\ 0 < n.
Proof.
  unfold lit_plus; intros Hl.
  destruct (lit l t) as [r |] eqn:E; [| discriminate].
  apply lit_Some in E; subst t; rewrite (span_app_all cls l r Hl).
  destruct (span cls r); [discriminate |]; intros H; inversion H; lia.
Qed.

(** *** The scan of [re.sub] as a relation *)

Section Scan.

Variable m : str -> option nat.

(** A match is never empty. *)
Hypothesis m_pos : forall t, m t <> Some 0.

Lemma scan_re_sub (t : str) : scan m t (re_sub m t).
Proof.
  assert (H : forall n t, List.length t <= n -> scan m t (re_sub m t)).
  { clear t; induction n as [| n IH]; intros [| c t] Hn; cbn in Hn;
      try (constructor; fail); try lia.
    unfold re_sub; cbn [re_sub_go].
    destruct (m (c :: t)) as [[| k] |] eqn:E.
    - now apply m_pos in E.
    - rewrite re_sub_go_skip; apply scan_drop with k; [exact E |].
      apply IH; rewrite length_skipn; lia.
    - apply scan_keep; [exact E | apply IH; lia]. }
  now apply (H (List.length t)).
Qed.

(** The class of characters that ends a greedy repetition. *)
Variable stop : ascii -> bool.

(** A match runs up to the end of the text or to a stopping character. *)
Hypothesis m_greedy :
  forall c t k, m (c :: t) = Some (S k) -> stops stop (skipn k t).

Lemma scan_stops (t o : str) : scan m t o -> stops stop t -> stops stop o.
Proof.
  induction 1 as [| c t o E _ _ | c t k o E _ IH]; intros Hs.
  - exact I.
  - exact Hs.
  - apply IH; now apply m_greedy with c.
Qed.

Lemma scan_agree (t o : str) : scan m t o -> agree m stop t o.
Proof.
  induction 1 as [| c t o E _ IH | c t k o E Hs _].
  - constructor.
  - now constructor.
  - apply scan_stops in Hs; [| now apply m_greedy with c].
    destruct o as [| d o]; [constructor |].
    apply agree_stop; [congruence | exact Hs].
Qed.

(** Following [t] along non-stopping characters. *)
Lemma agree_along (l t o : str) :
  Forall (fun a => stop a = false) l -> agree m stop t (l ++ o) ->
  exists t', t = l ++ t' /\ agree m stop t' o.
Proof.
  intros Hl; revert t; induction Hl as [| a l Ha _ IH]; intros t H.
  - now exists t.
  - cbn in H; inversion H as [| ? ? ? _ Hs | ? t1 ? H1]; subst.
    + congruence.
    + destruct (IH _ H1) as [t' [-> H']]; now exists t'.
Qed.

(** A literal followed by a character of [cls], read in [o], is there in
    [t] as well: the literal holds no stopping character, and where [o]
    resumes behind a match in [t], that match starts with a character of
    [cls]. *)
Lemma starts_window (a : ascii) (l : str) (cls : ascii -> bool) (c : ascii) (t o : str) :
  Forall (fun b => stop b = false) l ->
  (forall x t', cls x = true -> stop x = true -> m t' <> None ->
                exists y r, t' = y :: r /\ cls y = true) ->
  agree m stop t o -> starts (a :: l) cls (c :: o) -> starts (a :: l) cls (c :: t).
Proof.
  intros Hl Hm Ha [x [r [Hx E]]]; cbn in E; inversion E; subst.
  destruct (agree_along l t (x :: r) Hl Ha) as [t' [-> H']].
  inversion H' as [| ? ? ? Hmt Hs | ? t1 ? _]; subst.
  - destruct (Hm x t' Hx Hs Hmt) as [y [r' [-> Hy]]]; now exists y, r'.
  - now exists x, t1.
Qed.

(** The pattern whose matches the scan must not create. *)
Variable m' : str -> option nat.

Hypothesis window :
  forall c t o, agree m stop t o -> m' (c :: t) = None -> m' (c :: o) = None.

Lemma covered_skipn (k : nat) (t : str) : covered m m' t -> covered m m' (skipn k t).
Proof.
  revert t; induction k as [| k IH]; intros [| c t]; cbn [skipn]; try tauto.
  intros [_ F]; now apply IH.
Qed.

Lemma scan_free (t o : str) : scan m t o -> covered m m' t -> free m' o.
Proof.
  induction 1 as [| c t o E Hs IH | c t k o E _ IH]; intros Hc.
  - exact I.
  - destruct Hc as [Hm Hc]; split; [| now apply IH].
    apply window with t; [now apply scan_agree | now apply Hm].
  - destruct Hc as [_ Hc]; apply IH; now apply covered_skipn.
Qed.

Lemma re_sub_creates_no_match (t : str) : covered m m' t -> free m' (re_sub m t).
Proof. apply scan_free, scan_re_sub. Qed.

End Scan.

Lemma covered_self (m : str -> option nat) (t : str) : covered m m t.
Proof. induction t as [| c t IH]; cbn; tauto. Qed.

Lemma free_covered (m m' : str -> option nat) (t : str) :
  free m' t -> covered m m' t.
Proof. induction t as [| c t IH]; cbn; tauto. Qed.

(** *** The three patterns *)

Lemma alt_None (m1 m2 : str -> option nat) (t : str) :
  alt m1 m2 t = None <-> m1 t = None /\ m2 t = None.
Proof. unfold alt; destruct (m1 t); split; intros; try tauto; try easy. Qed.

Lemma alt_Some (m1 m2 : str -> option nat) (t : str) (n : nat) :
  alt m1 m2 t = Some n -> m1 t = Some n \/ m2 t = Some n.
Proof. unfold alt; destruct (m1 t); tauto. Qed.

Lemma not_None_iff {A} (o : option A) (P : Prop) :
  (o <> None <-> P) -> (o = None <-> ~ P).
Proof.
  destruct o as [a |]; intros [H1 H2]; split; intros H.
  - discriminate H.
  - exfalso; apply H, H1; discriminate.
  - intros HP; now apply H2 in HP.
  - reflexivity.
Qed.

Lemma url_re_at (t : str) : url_re t = None <-> ~ url_at t.
Proof.
  unfold url_re, url_at; rewrite !alt_None.
  rewrite !(not_None_iff _ _ (lit_plus_starts _ _ _)); tauto.
Qed.

Lemma mention_re_at (t : str) : mention_re t = None <-> ~ mention_at t.
Proof. apply not_None_iff, lit_plus_starts. Qed.

Lemma url_re_span (t : str) (n : nat) :
  url_re t = Some n -> n = span nonspace t /\ 0 < n.
Proof.
  unfold url_re; intros H.
  apply alt_Some in H; destruct H as [H | H];
    [| apply alt_Some in H; destruct H as [H | H]];
    (apply lit_plus_span in H; [exact H | repeat constructor]).
Qed.

Lemma mention_re_span (c : ascii) (t : str) (n : nat) :
  mention_re (c :: t) = Some n -> n = S (span isword t) /\ 0 < span isword t.
Proof.
  unfold mention_re, lit_plus; destruct (lit (s2l "@") (c :: t)) as [r |] eqn:E;
    [| discriminate].
  apply lit_Some in E; cbn in E; inversion E; subst.
  destruct (span isword r); [discriminate |]; intros H; inversion H; lia.
Qed.

Lemma url_re_pos (t : str) : url_re t <> Some 0.
Proof. intros H; apply url_re_span in H; lia. Qed.

Lemma mention_re_pos (t : str) : mention_re t <> Some 0.
Proof.
  destruct t as [| c t]; [discriminate |].
  intros H; apply mention_re_span in H; lia.
Qed.

Lemma url_re_greedy (c : ascii) (t : str) (k : nat) :
  url_re (c :: t) = Some (S k) -> stops isspace (skipn k t).
Proof.
  intros H; apply url_re_span in H; destruct H as [H _]; cbn in H.
  destruct (nonspace c); [| discriminate]; inversion H; subst.
  pose proof (skipn_span nonspace t) as Hs; unfold stops.
  destruct (skipn (span nonspace t) t) as [| d r]; [exact I |].
  unfold nonspace in Hs; now apply negb_false_iff in Hs.
Qed.

Lemma mention_re_greedy (c : ascii) (t : str) (k : nat) :
  mention_re (c :: t) = Some (S k) -> stops nonword (skipn k t).
Proof.
  intros H; apply mention_re_span in H; destruct H as [H _]; inversion H; subst.
  pose proof (skipn_span isword t) as Hs; unfold stops, nonword.
  destruct (skipn (span isword t) t) as [| d r]; [exact I |].
  now rewrite Hs.
Qed.

Lemma mention_at_head (t : str) :
  mention_re t <> None -> exists y r, t = y :: r /\ nonspace y = true.
Proof.
  intros H; apply lit_plus_starts in H; destruct H as [x [r [_ ->]]].
  now exists "@"%char, (x :: r).
Qed.

(** Removing URLs leaves no URL behind. *)
Lemma url_window_urls (c : ascii) (t o : str) :
  agree url_re isspace t o -> url_re (c :: t) = None -> url_re (c :: o) = None.
Proof.
  intros Ha; rewrite !url_re_at; intros Hn Ho; apply Hn; clear Hn.
  assert (Hm : forall x t', nonspace x = true -> isspace x = true ->
                 url_re t' <> None -> exists y r, t' = y :: r /\ nonspace y = true).
  { unfold nonspace; intros x t' Hx Hs; rewrite Hs in Hx; discriminate Hx. }
  destruct Ho as [Ho | [Ho | Ho]]; [left | right; left | right; right];
    (eapply starts_window; [| exact Hm | exact Ha | exact Ho]);
    repeat constructor.
Qed.

(** Removing mentions leaves no mention behind. *)
Lemma mention_window_mentions (c : ascii) (t o : str) :
  agree mention_re nonword t o ->
  mention_re (c :: t) = None -> mention_re (c :: o) = None.
Proof.
  intros Ha; rewrite !mention_re_at; intros Hn Ho; apply Hn; clear Hn.
  eapply starts_window; [| | exact Ha | exact Ho]; [constructor |].
  unfold nonword; intros x t' Hx Hs; rewrite Hx in Hs; discriminate Hs.
Qed.

(** Removing mentions creates no URL. *)
Lemma url_window_mentions (c : ascii) (t o : str) :
  agree mention_re nonword t o -> url_re (c :: t) = None -> url_re (c :: o) = None.
Proof.
  intros Ha; rewrite !url_re_at; intros Hn Ho; apply Hn; clear Hn.
  assert (Hm : forall x t', nonspace x = true -> nonword x = true ->
                 mention_re t' <> None ->
                 exists y r, t' = y :: r /\ nonspace y = true).
  { intros x t' _ _; apply mention_at_head. }
  destruct Ho as [Ho | [Ho | Ho]]; [left | right; left | right; right];
    (eapply starts_window; [| exact Hm | exact Ha | exact Ho]);
    repeat constructor.
Qed.

Lemma remove_urls_free (t : str) : free url_re (remove_urls t).
Proof.
  apply re_sub_creates_no_match with (stop := isspace).
  - exact url_re_pos.
  - exact url_re_greedy.
  - exact url_window_urls.
  - apply covered_self.
Qed.

Lemma remove_mentions_free (t : str) : free mention_re (remove_mentions t).
Proof.
  apply re_sub_creates_no_match with (stop := nonword).
  - exact mention_re_pos.
  - exact mention_re_greedy.
  - exact mention_window_mentions.
  - apply covered_self.
Qed.

Lemma remove_mentions_url_free (t : str) :
  free url_re t -> free url_re (remove_mentions t).
Proof.
  intros H; apply re_sub_creates_no_match with (stop := nonword).
  - exact mention_re_pos.
  - exact mention_re_greedy.
  - exact url_window_mentions.
  - now apply free_covered.
Qed.

(** *** Whitespace *)

Lemma starts_app (l : str) (cls : ascii -> bool) (a b : str) :
  starts l cls a -> starts l cls (a ++ b).
Proof.
  intros [x [r [Hx ->]]]; exists x, (r ++ b); split; [exact Hx |].
  now rewrite <- app_assoc.
Qed.

(** A literal and a character free of whitespace do not reach across a
    whitespace character. *)
Lemma starts_before_space (l : str) (cls : ascii -> bool) (a b : str) (sp : ascii) :
  Forall (fun c => isspace c = false) l ->
  (forall x, cls x = true -> isspace x = false) ->
  isspace sp = true ->
  starts l cls (a ++ sp :: b) -> starts l cls a.
Proof.
  intros Hl Hcls Hsp; revert a; induction Hl as [| h l Hh _ IH];
    intros [| y a] [x [r [Hx E]]]; cbn in E; inversion E; subst.
  - apply Hcls in Hx; congruence.
  - now exists x, a.
  - congruence.
  - destruct (IH a) as [x' [r' [Hx' ->]]]; [now exists x, r |].
    now exists x', r'.
Qed.

Section Windowed.

(** A pattern that reads no further than the next whitespace. *)
Variable m : str -> option nat.
Hypothesis m_nil : m [] = None.
Hypothesis m_prefix : forall a b, m (a ++ b) = None -> m a = None.
Hypothesis m_space :
  forall a sp b, isspace sp = true -> m a = None -> m (a ++ sp :: b) = None.

Lemma split_ws_prefix (t w : str) (ws : list str) :
  split_ws t = w :: ws -> exists rest, lstrip t = w ++ rest.
Proof.
  revert w ws; induction t as [| c t IH]; intros w ws; cbn [split_ws lstrip];
    [discriminate |].
  destruct (isspace c) eqn:Ec; [apply IH |].
  destruct t as [| d t]; [intros H; inversion H; now exists [] |].
  destruct (isspace d) eqn:Ed; [intros H; inversion H; now exists (d :: t) |].
  destruct (split_ws (d :: t)) as [| w' ws'] eqn:Es.
  - intros H; inversion H; now exists (d :: t).
  - destruct (IH w' ws' eq_refl) as [rest Hr].
    cbn [lstrip] in Hr; rewrite Ed in Hr.
    intros H; inversion H; exists rest; cbn; now rewrite Hr.
Qed.

Lemma free_split_ws (t : str) : free m t -> Forall (free m) (split_ws t).
Proof.
  induction t as [| c t IH]; cbn [split_ws]; [constructor |].
  intros [Hc Ht]; specialize (IH Ht).
  destruct (isspace c) eqn:Ec; [exact IH |].
  assert (H1 : free m [c]).
  { split; [| exact I]; apply (m_prefix [c] t); exact Hc. }
  destruct t as [| d t]; [constructor; [exact H1 | constructor] |].
  destruct (isspace d) eqn:Ed; [now constructor |].
  destruct (split_ws (d :: t)) as [| w ws] eqn:Es;
    [constructor; [exact H1 | constructor] |].
  inversion IH as [| ? ? Hw Hws]; subst; constructor; [| exact Hws].
  split; [| exact Hw].
  destruct (split_ws_prefix (d :: t) w ws Es) as [rest Hr].
  cbn [lstrip] in Hr; rewrite Ed in Hr.
  apply (m_prefix (c :: w) rest); cbn; rewrite <- Hr; exact Hc.
Qed.

Lemma free_app_space (w rest : str) (sp : ascii) :
  isspace sp = true -> free m w -> free m rest -> free m (w ++ sp :: rest).
Proof.
  intros Hsp Hw Hr; induction w as [| c w IH]; cbn [app].
  - split; [| exact Hr]; exact (m_space [] sp rest Hsp m_nil).
  - destruct Hw as [Hc Hw]; split; [| now apply IH].
    exact (m_space (c :: w) sp rest Hsp Hc).
Qed.

Lemma free_join (toks : list str) :
  Forall (free m) toks -> free m (join (s2l " ") toks).
Proof.
  induction 1 as [| w ws Hw Hws IH]; [exact I |].
  destruct ws as [| w2 ws]; [exact Hw |].
  change (join (s2l " ") (w :: w2 :: ws))
    with (w ++ " "%char :: join (s2l " ") (w2 :: ws)).
  now apply free_app_space.
Qed.

(** Collapsing whitespace creates no match. *)
Lemma squeeze_free (t : str) : free m t -> free m (squeeze t).
Proof. intros H; apply free_join, free_split_ws, H. Qed.

End Windowed.

Lemma starts_nil (l : str) (cls : ascii -> bool) : ~ starts l cls [].
Proof. intros [x [r [_ E]]]; destruct l; discriminate E. Qed.

Lemma nonspace_false (x : ascii) : nonspace x = true -> isspace x = false.
Proof. unfold nonspace; now destruct (isspace x). Qed.

Lemma isword_nonspace (x : ascii) : isword x = true -> isspace x = false.
Proof.
  unfold isword, isspace, between; generalize (code x); intros n H.
  repeat match goal with
         | H : (_ || _)%bool = true |- _ => apply orb_true_iff in H; destruct H as [H | H]
         | H : (_ && _)%bool = true |- _ => apply andb_true_iff in H; destruct H as [? H]
         | H : (_ <=? _) = true |- _ => apply Nat.leb_le in H
         | H : (_ =? _) = true |- _ => apply Nat.eqb_eq in H
         end;
    repeat match goal with
           | |- (_ || _)%bool = false => apply orb_false_iff; split
           | |- (_ && _)%bool = false => apply andb_false_iff
           end;
    try (apply Nat.eqb_neq; lia);
    try (left; apply Nat.leb_gt; lia); try (right; apply Nat.leb_gt; lia).
Qed.

Lemma squeeze_url_free (t : str) : free url_re t -> free url_re (squeeze t).
Proof.
  apply squeeze_free.
  - reflexivity.
  - intros a b; rewrite !url_re_at; intros H Ha; apply H.
    destruct Ha as [Ha | [Ha | Ha]]; [left | right; left | right; right];
      now apply starts_app.
  - intros a sp b Hsp; rewrite !url_re_at; intros H Ha; apply H.
    destruct Ha as [Ha | [Ha | Ha]]; [left | right; left | right; right];
      (eapply starts_before_space; [| exact nonspace_false | exact Hsp | exact Ha]);
      repeat constructor.
Qed.

Lemma squeeze_mention_free (t : str) :
  free mention_re t -> free mention_re (squeeze t).
Proof.
  apply squeeze_free.
  - reflexivity.
  - intros a b; rewrite !mention_re_at; intros H Ha; apply H.
    now apply starts_app.
  - intros a sp b Hsp; rewrite !mention_re_at; intros H Ha; apply H.
    eapply starts_before_space; [| exact isword_nonspace | exact Hsp | exact Ha].
    repeat constructor.
Qed.

(** *** Collapsing whitespace twice *)

Lemma split_ws_tokens (t : str) : Forall token (split_ws t).
Proof.
  induction t as [| c t IH]; cbn [split_ws]; [constructor |].
  destruct (isspace c) eqn:Ec; [exact IH |].
  assert (H1 : token [c]) by (split; [discriminate | now repeat constructor]).
  destruct t as [| d t]; [now repeat constructor |].
  destruct (isspace d) eqn:Ed; [now constructor |].
  destruct (split_ws (d :: t)) as [| w ws]; [now repeat constructor |].
  inversion IH as [| ? ? [_ Hw] Hws]; subst; constructor; [| exact Hws].
  split; [discriminate | now constructor].
Qed.

Lemma split_ws_cons2 (c d : ascii) (t : str) :
  split_ws (c :: d :: t)
  = if isspace c then split_ws (d :: t)
    else if isspace d then [c] :: split_ws (d :: t)
         else match split_ws (d :: t) with
              | w :: ws => (c :: w) :: ws
              | [] => [[c]]
              end.
Proof. reflexivity. Qed.

Lemma split_ws_token_space (w rest : str) (sp : ascii) :
  token w -> isspace sp = true ->
  split_ws (w ++ sp :: rest) = w :: split_ws rest.
Proof.
  intros [Hne Hw] Hsp; induction Hw as [| c w Hc Hw IH]; [congruence |].
  destruct w as [| d w].
  - cbn [app]; rewrite split_ws_cons2, Hc, Hsp; cbn [split_ws].
    now rewrite Hsp.
  - assert (Hd : isspace d = false) by now inversion Hw.
    cbn [app] in *; rewrite split_ws_cons2, Hc, Hd, IH by discriminate.
    reflexivity.
Qed.

Lemma split_ws_token (w : str) : token w -> split_ws w = [w].
Proof.
  intros [Hne Hw]; induction Hw as [| c w Hc Hw IH]; [congruence |].
  destruct w as [| d w]; [cbn [split_ws]; now rewrite Hc |].
  assert (Hd : isspace d = false) by now inversion Hw.
  rewrite split_ws_cons2, Hc, Hd, IH by discriminate; reflexivity.
Qed.

Lemma split_ws_join (toks : list str) :
  Forall token toks -> split_ws (join (s2l " ") toks) = toks.
Proof.
  induction 1 as [| w ws Hw Hws IH]; [reflexivity |].
  destruct ws as [| w2 ws]; [now apply split_ws_token |].
  change (join (s2l " ") (w :: w2 :: ws))
    with (w ++ " "%char :: join (s2l " ") (w2 :: ws)).
  rewrite split_ws_token_space, IH; [reflexivity | exact Hw | reflexivity].
Qed.

Lemma squeeze_idempotent (t : str) : squeeze (squeeze t) = squeeze t.
Proof.
  unfold squeeze; now rewrite split_ws_join by apply split_ws_tokens.
Qed.

(** *** Characters that cleaning can leave *)

Lemma re_sub_go_In (m : str -> option nat) (c : ascii) (t : str) (k : nat) :
  In c (re_sub_go m k t) -> In c t.
Proof.
  revert k; induction t as [| d t IH]; intros k; cbn [re_sub_go]; [tauto |].
  destruct k as [| k]; [| intros H; right; now apply IH with k].
  destruct (m (d :: t)) as [[| j] |];
    try (intros [-> | H]; [now left | right; now apply IH with 0]).
  intros H; right; now apply IH with j.
Qed.

Lemma split_ws_In (c : ascii) (w : str) (t : str) :
  In w (split_ws t) -> In c w -> In c t.
Proof.
  revert w; induction t as [| d t IH]; intros w; cbn [split_ws]; [tauto |].
  destruct (isspace d); [intros H Hc; right; now apply IH with w |].
  assert (H1 : In w [[d]] -> In c w -> In c (d :: t)).
  { intros [<- | []] [<- | []]; now left. }
  destruct t as [| e t]; [exact H1 |].
  destruct (isspace e).
  - intros [<- | H] Hc; [destruct Hc as [<- | []]; now left |].
    right; now apply IH with w.
  - destruct (split_ws (e :: t)) as [| w' ws]; [exact H1 |].
    intros [<- | H] Hc.
    + destruct Hc as [<- | Hc]; [now left | right].
      apply IH with w'; [now left | exact Hc].
    + right; apply IH with w; [now right | exact Hc].
Qed.

Lemma join_In (c : ascii) (sep : str) (toks : list str) :
  In c (join sep toks) -> In c sep \/ exists w, In w toks /\ In c w.
Proof.
  induction toks as [| w ws IH]; cbn [join]; [intros [] |].
  destruct ws as [| w2 ws].
  - intros H; right; exists w; split; [now left | exact H].
  - rewrite !in_app_iff; intros [H | [H | H]].
    + right; exists w; split; [now left | exact H].
    + now left.
    + destruct (IH H) as [Hs | [w' [Hw' Hc]]]; [now left |].
      right; exists w'; split; [now right | exact Hc].
Qed.

Lemma squeeze_In (c : ascii) (t : str) :
  In c (squeeze t) -> c = " "%char \/ In c t.
Proof.
  unfold squeeze; intros H; apply join_In in H.
  destruct H as [[<- | []] | [w [Hw Hc]]]; [now left |].
  right; now apply split_ws_In with w.
Qed.

Lemma hash_free (t : str) : ~ In "#"%char t -> free hash_re t.
Proof.
  induction t as [| c t IH]; cbn [free]; [tauto |].
  intros H; split; [| apply IH; intros Hin; apply H; now right].
  unfold hash_re; destruct (lit (s2l "#") (c :: t)) as [r |] eqn:E;
    [| reflexivity].
  apply lit_Some in E; inversion E; subst; exfalso; apply H; now left.
Qed.

(** A text free of URLs, mentions and hash signs is cleaned to its
    whitespace-collapsed form. *)
Lemma clean_text_free (t : str) :
  free url_re t -> free mention_re t -> ~ In "#"%char t ->
  clean_text t = squeeze t.
Proof.
  intros Hu Hm Hh; unfold clean_text, remove_urls, remove_mentions, remove_hashes.
  now rewrite (re_sub_free _ _ Hu), (re_sub_free _ _ Hm),
    (re_sub_free _ _ (hash_free _ Hh)).
Qed.

(** On a text without a hash sign, cleaning a cleaned text changes
    nothing. *)
Theorem clean_text_idempotent_without_hash (x : str) :
  ~ In "#"%char x -> clean_text (clean_text x) = clean_text x.
Proof.
  intros Hx.
  set (t := remove_mentions (remove_urls x)).
  assert (Hu : free url_re t)
    by apply remove_mentions_url_free, remove_urls_free.
  assert (Hm : free mention_re t) by apply remove_mentions_free.
  assert (Hh : ~ In "#"%char t).
  { intros H; apply Hx; unfold t, remove_mentions, remove_urls, re_sub in H.
    now apply re_sub_go_In, re_sub_go_In in H. }
  assert (E : clean_text x = squeeze t).
  { unfold clean_text; fold t; unfold remove_hashes.
    now rewrite (re_sub_free _ _ (hash_free _ Hh)). }
  rewrite E, clean_text_free.
  - apply squeeze_idempotent.
  - now apply squeeze_url_free.
  - now apply squeeze_mention_free.
  - intros H; apply squeeze_In in H; destruct H as [H | H];
      [discriminate H | now apply Hh].
Qed.

Lemma clean_text_idempotent_without_hash_witness :
  clean_text (clean_text (s2l "Check  http://x.co @bob great"))
  = clean_text (s2l "Check  http://x.co @bob great").
Proof.
  apply (clean_text_idempotent_without_hash (s2l "Check  http://x.co @bob great")).
  intros H; cbn in H; repeat (destruct H as [H | H]; [discriminate H |]).
  exact H.
Defined.

(** * Further properties of the code *)

(** ** Stripping *)

Lemma lstrip_spec (t : str) :
  exists ws, t = ws ++ lstrip t /\ Forall (fun c => isspace c = true) ws.
Proof.
  induction t as [| c t [ws [E F]]]; [now exists [] |].
  cbn [lstrip]; destruct (isspace c) eqn:Ec; [| now exists []].
  exists (c :: ws); split; [cbn; now rewrite <- E | now constructor].
Qed.

Lemma lstrip_headed (t : str) : lstrip t = [] \/ headed (lstrip t).
Proof.
  induction t as [| c t IH]; [now left |].
  cbn [lstrip]; destruct (isspace c) eqn:Ec; [exact IH | now right].
Qed.

Lemma lstrip_fix (t : str) : headed t -> lstrip t = t.
Proof.
  destruct t as [| c t]; intros H; [destruct H |].
  cbn in H; cbn [lstrip]; now rewrite H.
Qed.

Lemma lstrip_nil (t : str) :
  lstrip t = [] <-> Forall (fun c => isspace c = true) t.
Proof.
  induction t as [| c t IH]; cbn [lstrip]; [split; [constructor | reflexivity] |].
  destruct (isspace c) eqn:Ec; split.
  - intros H; constructor; [exact Ec | now apply IH].
  - intros H; inversion H; now apply IH.
  - discriminate.
  - intros H; inversion H; congruence.
Qed.

Lemma headed_app (l r : str) : headed l -> headed (l ++ r).
Proof. destruct l; intros H; [destruct H | exact H]. Qed.

Lemma headed_app_inv (l r : str) : l <> [] -> headed (l ++ r) -> headed l.
Proof. destruct l; intros Hne H; [congruence | exact H]. Qed.

Lemma strip_nil (t : str) :
  strip t = [] <-> Forall (fun c => isspace c = true) t.
Proof.
  unfold strip; split.
  - intros H.
    assert (H1 : lstrip (rev (lstrip t)) = []).
    { apply (f_equal (@rev ascii)) in H; now rewrite rev_involutive in H. }
    apply lstrip_nil, Forall_rev in H1; rewrite rev_involutive in H1.
    destruct (lstrip_headed t) as [E | Hh]; [now apply lstrip_nil |].
    destruct (lstrip t) as [| c r]; [destruct Hh |].
    inversion H1; cbn in Hh; congruence.
  - intros H; apply lstrip_nil in H; now rewrite H.
Qed.

Lemma nonblank_false (t : str) :
  nonblank t = false <-> Forall (fun c => isspace c = true) t.
Proof.
  rewrite <- strip_nil; unfold nonblank, truthy.
  destruct (strip t); split; congruence.
Qed.

Lemma strip_fix (t : str) : headed t -> headed (rev t) -> strip t = t.
Proof.
  intros H1 H2; unfold strip.
  now rewrite (lstrip_fix _ H1), (lstrip_fix _ H2), rev_involutive.
Qed.

(** What [strip] returns is empty or has no whitespace at either end. *)
Lemma strip_ends (t : str) :
  strip t = [] \/ (headed (strip t) /\ headed (rev (strip t))).
Proof.
  unfold strip; set (a := lstrip t).
  destruct (lstrip_headed (rev a)) as [E | Hb]; [left; now rewrite E |].
  right; rewrite rev_involutive; split; [| exact Hb].
  destruct (lstrip_spec (rev a)) as [ws [E _]].
  assert (Ea : a = rev (lstrip (rev a)) ++ rev ws).
  { rewrite <- rev_app_distr, <- E; now rewrite rev_involutive. }
  assert (Hne : rev (lstrip (rev a)) <> []).
  { intros H; apply (f_equal (@rev ascii)) in H; rewrite rev_involutive in H.
    rewrite H in Hb; exact Hb. }
  apply headed_app_inv with (rev ws); [exact Hne |]; rewrite <- Ea.
  destruct (lstrip_headed t) as [E' | Ha]; [| exact Ha].
  exfalso; fold a in E'; rewrite E' in Hb; exact Hb.
Qed.

Lemma strip_strip (t : str) : strip (strip t) = strip t.
Proof.
  destruct (strip_ends t) as [E | [H1 H2]]; [now rewrite E |].
  now apply strip_fix.
Qed.

(** ** More on cleaning *)

Lemma remove_hashes_no_hash (t : str) : ~ In "#"%char (remove_hashes t).
Proof.
  unfold remove_hashes, re_sub; generalize 0 as k.
  induction t as [| c t IH]; intros k; cbn [re_sub_go]; [tauto |].
  destruct k as [| k]; [| apply IH].
  unfold hash_re at 1; cbn [lit s2l list_ascii_of_string].
  destruct (Ascii.eqb_spec "#"%char c) as [E | N]; [apply IH |].
  intros [E | H]; [congruence | now apply IH in H].
Qed.

Lemma join_tokens_ends (toks : list str) :
  Forall token toks -> toks <> [] ->
  headed (join (s2l " ") toks) /\ headed (rev (join (s2l " ") toks)).
Proof.
  induction 1 as [| w ws [Hne Hw] Hws IH]; [congruence |]; intros _.
  assert (H1 : headed w).
  { destruct w; [congruence | now inversion Hw]. }
  destruct ws as [| w2 ws].
  - split; [exact H1 |]; cbn [join].
    apply Forall_rev in Hw; destruct (rev w) as [| c r] eqn:E;
      [| now inversion Hw].
    apply (f_equal (@rev ascii)) in E; rewrite rev_involutive in E; cbn in E.
    congruence.
  - change (join (s2l " ") (w :: w2 :: ws))
      with (w ++ " "%char :: join (s2l " ") (w2 :: ws)).
    split; [now apply headed_app |].
    rewrite rev_app_distr; cbn [rev]; rewrite <- app_assoc.
    apply headed_app, IH; discriminate.
Qed.

Lemma squeeze_length (t : str) : List.length (squeeze t) <= List.length t.
Proof.
  unfold squeeze.
  assert (H : List.length (join (s2l " ") (split_ws t)) <= List.length t
              /\ (headed t \/ List.length (join (s2l " ") (split_ws t)) < List.length t
                  \/ t = [])).
  { induction t as [| c t [IH1 IH2]]; [cbn; auto |].
    destruct (isspace c) eqn:Ec.
    - cbn [split_ws]; rewrite Ec; cbn [List.length]; split; [lia | right; left; lia].
    - split; [| left; exact Ec].
      destruct t as [| d t]; [cbn; rewrite Ec; cbn; lia |].
      rewrite split_ws_cons2, Ec; destruct (isspace d) eqn:Ed.
      + destruct IH2 as [Hh | [Hlt | E]]; [cbn in Hh; congruence | | discriminate].
        destruct (split_ws (d :: t)) as [| w ws]; [cbn; lia |].
        change (join (s2l " ") ([c] :: w :: ws))
          with (c :: " "%char :: join (s2l " ") (w :: ws)).
        cbn [List.length] in *; lia.
      + destruct (split_ws (d :: t)) as [| w ws]; [cbn; lia |].
        assert (E : join (s2l " ") ((c :: w) :: ws) = c :: join (s2l " ") (w :: ws))
          by (destruct ws; reflexivity).
        rewrite E; cbn [List.length] in *; lia. }
  exact (proj1 H).
Qed.

Lemma re_sub_go_length (m : str -> option nat) (t : str) (k : nat) :
  List.length (re_sub_go m k t) <= List.length t.
Proof.
  revert k; induction t as [| c t IH]; intros k; cbn [re_sub_go List.length];
    [lia |].
  destruct k as [| k]; [| specialize (IH k); lia].
  destruct (m (c :: t)) as [[| j] |]; cbn [List.length];
    try (specialize (IH 0); lia).
  specialize (IH j); lia.
Qed.

(** The cleaned text holds no hash sign. *)
Theorem clean_text_no_hash (x : str) : ~ In "#"%char (clean_text x).
Proof.
  unfold clean_text; intros H; apply squeeze_In in H.
  destruct H as [H | H]; [discriminate H | now apply remove_hashes_no_hash in H].
Qed.

(** The cleaned text is made of non-empty words free of whitespace, joined
    by single spaces: no whitespace at either end, no whitespace other
    than the space, no two spaces in a row. *)
Theorem clean_text_normal_form (x : str) :
  (exists toks, Forall token toks /\ clean_text x = join (s2l " ") toks)
  /\ strip (clean_text x) = clean_text x
  /\ squeeze (clean_text x) = clean_text x.
Proof.
  unfold clean_text.
  set (t := remove_hashes (remove_mentions (remove_urls x))).
  split; [| split].
  - exists (split_ws t); split; [apply split_ws_tokens | reflexivity].
  - unfold squeeze; destruct (split_ws t) as [| w ws] eqn:E; [reflexivity |].
    destruct (join_tokens_ends (w :: ws)) as [H1 H2];
      [rewrite <- E; apply split_ws_tokens | discriminate |].
    now apply strip_fix.
  - apply squeeze_idempotent.
Qed.

(** Cleaning only takes characters away or turns whitespace into a space:
    the cleaned text is no longer than the text, and each of its
    characters is a space or a character of the text. *)
Theorem clean_text_shrinks (x : str) :
  List.length (clean_text x) <= List.length x
  /\ incl (clean_text x) (" "%char :: x).
Proof.
  unfold clean_text, remove_hashes, remove_mentions, remove_urls, re_sub; split.
  - etransitivity; [apply squeeze_length |].
    etransitivity; [apply re_sub_go_length |].
    etransitivity; [apply re_sub_go_length | apply re_sub_go_length].
  - intros c H; apply squeeze_In in H; destruct H as [-> | H]; [now left |].
    right; now apply re_sub_go_In, re_sub_go_In, re_sub_go_In in H.
Qed.

Lemma blank_free (l : str) (cls : ascii -> bool) (t : str) :
  headed l -> Forall (fun c => isspace c = true) t -> free (lit_plus l cls) t.
Proof.
  intros Hl; induction 1 as [| c t Hc _ IH]; [exact I |].
  split; [| exact IH].
  apply (not_None_iff _ _ (lit_plus_starts l cls (c :: t))).
  intros [x [r [_ E]]]; destruct l as [| a l]; [destruct Hl |].
  cbn in E, Hl; inversion E; congruence.
Qed.

Lemma split_ws_blank (t : str) :
  Forall (fun c => isspace c = true) t -> split_ws t = [].
Proof.
  induction 1 as [| c t Hc _ IH]; [reflexivity |].
  cbn [split_ws]; now rewrite Hc.
Qed.

(** A document of whitespace only, which the batch skips, is cleaned to the
    empty string. *)
Theorem clean_text_blank (x : str) : nonblank x = false -> clean_text x = [].
Proof.
  intros H; apply nonblank_false in H.
  rewrite clean_text_free.
  - unfold squeeze; now rewrite split_ws_blank.
  - unfold url_re; induction H as [| c t Hc Ht IH]; [exact I |].
    split; [| exact IH]; rewrite !alt_None; repeat split;
      apply (blank_free _ _ (c :: t)); try (now constructor); reflexivity.
  - apply blank_free; [reflexivity | exact H].
  - intros Hin; rewrite Forall_forall in H; apply H in Hin; discriminate Hin.
Qed.

Lemma clean_text_blank_witness : clean_text (s2l "  	 ") = [].
Proof. exact (clean_text_blank (s2l "  	 ") eq_refl). Defined.

(** A text in which no URL and no mention starts and that holds no hash
    sign is only collapsed: cleaning changes nothing but its whitespace. *)
Theorem clean_text_only_collapses (t : str) :
  free url_re t -> free mention_re t -> ~ In "#"%char t ->
  clean_text t = join (s2l " ") (split_ws t).
Proof. apply clean_text_free. Qed.

Lemma clean_text_only_collapses_witness :
  clean_text (s2l " I  love it ") = join (s2l " ") (split_ws (s2l " I  love it ")).
Proof.
  apply (clean_text_only_collapses (s2l " I  love it ")).
  - repeat split; reflexivity.
  - repeat split; reflexivity.
  - intros H; cbn in H; repeat (destruct H as [H | H]; [discriminate H |]).
    exact H.
Defined.

Lemma free_suffix (m : str -> option nat) (pre suf : str) :
  free m (pre ++ suf) -> free m suf.
Proof.
  induction pre as [| c pre IH]; [tauto |]; intros [_ H]; now apply IH.
Qed.

Lemma clean_text_without_hash_free (x : str) :
  ~ In "#"%char x -> free url_re (clean_text x) /\ free mention_re (clean_text x).
Proof.
  intros Hx.
  set (t := remove_mentions (remove_urls x)).
  assert (Hh : ~ In "#"%char t).
  { intros H; apply Hx; unfold t, remove_mentions, remove_urls, re_sub in H.
    now apply re_sub_go_In, re_sub_go_In in H. }
  assert (E : clean_text x = squeeze t).
  { unfold clean_text; fold t; unfold remove_hashes.
    now rewrite (re_sub_free _ _ (hash_free _ Hh)). }
  rewrite E; split.
  - apply squeeze_url_free, remove_mentions_url_free, remove_urls_free.
  - apply squeeze_mention_free, remove_mentions_free.
Qed.

(** When the text holds no hash sign, no URL and no mention is left: at no
    position of the cleaned text does a URL or a mention start. *)
Theorem clean_text_no_url_no_mention (x pre suf : str) :
  ~ In "#"%char x -> clean_text x = pre ++ suf ->
  ~ url_at suf /\ ~ mention_at suf.
Proof.
  intros Hx E; destruct (clean_text_without_hash_free x Hx) as [Hu Hm].
  rewrite E in Hu, Hm; apply free_suffix in Hu, Hm.
  destruct suf as [| c suf].
  - split; intros H; [destruct H as [H | [H | H]] |]; now apply starts_nil in H.
  - split; [apply url_re_at | apply mention_re_at]; [apply Hu | apply Hm].
Qed.

Lemma clean_text_no_url_no_mention_witness :
  ~ url_at (s2l "me www") /\ ~ mention_at (s2l "me www").
Proof.
  apply (clean_text_no_url_no_mention (s2l "@a@b tell http://x me www www.y")
           (s2l "tell ") (s2l "me www")).
  - intros H; cbn in H; repeat (destruct H as [H | H]; [discriminate H |]).
    exact H.
  - reflexivity.
Defined.

(** ** More on batch analysis *)

Section BatchMore.

Variable score : str -> outcome (float * float).
Variable np_round : float -> nat -> float.
Variable series_mean : list float -> float.

Lemma analysed_fun (ts : list str) (rs rs' : list result) :
  Forall2 (analysed score) ts rs -> Forall2 (analysed score) ts rs' -> rs = rs'.
Proof.
  intros H; revert rs'; induction H as [| t r ts rs [ps [E ->]] _ IH];
    intros rs' H'; inversion H' as [| ? r' ? rs1 [ps' [E' ->]] H1]; subst;
    [reflexivity |].
  rewrite (IH _ H1); congruence.
Qed.

Lemma analyze_multiple_returned_inv
    (texts : list str) (st st' : analyzer) (rs : list result) :
  analyze_multiple score texts st = (Returned rs, st') ->
  st' = {| results := rs |}
  /\ Forall2 (analysed score) (filter nonblank texts) rs.
Proof.
  rewrite analyze_multiple_unfold.
  destruct (for_each texts (loop_body score) {| results := [] |})
    as [[[] | e] st1] eqn:E; [| discriminate].
  intros H; inversion H; subst.
  destruct (loop_returned_inv score _ _ _ E) as [recs [-> F]].
  now split.
Qed.

Lemma loop_blank (texts : list str) (st : analyzer) :
  Forall (fun t => nonblank t = false) texts ->
  for_each texts (loop_body score) st = (Returned tt, st).
Proof.
  induction 1 as [| t ts Ht _ IH]; [reflexivity |].
  now rewrite for_each_cons, (loop_body_blank score t st Ht).
Qed.

(** On a batch of blank documents the scorer is not consulted:
    [analyze_multiple] returns the empty list and stores it, whatever the
    scorer would do and whatever was stored. *)
Theorem analyze_multiple_all_blank (texts : list str) (st : analyzer) :
  Forall (fun t => nonblank t = false) texts ->
  analyze_multiple score texts st = (Returned [], {| results := [] |}).
Proof.
  intros H; now rewrite analyze_multiple_unfold, (loop_blank texts _ H).
Qed.

Lemma scores_all_app (a b : list str) :
  scores_all score (a ++ b) -> scores_all score a /\ scores_all score b.
Proof.
  intros H; split; intros t Ht; apply H; apply in_app_iff; tauto.
Qed.

(** The batch over two lists in a row is the two batches in a row. *)
Theorem analyze_multiple_app (a b : list str) :
  scores_all score (a ++ b) ->
  exists ra rb,
    (forall st, analyze_multiple score a st = (Returned ra, {| results := ra |}))
    /\ (forall st, analyze_multiple score b st = (Returned rb, {| results := rb |}))
    /\ (forall st, analyze_multiple score (a ++ b) st
                   = (Returned (ra ++ rb), {| results := ra ++ rb |})).
Proof.
  intros H; destruct (scores_all_app a b H) as [Ha Hb].
  destruct (loop_returns score a Ha []) as [ra [Ea Fa]].
  destruct (loop_returns score b Hb []) as [rb [Eb Fb]].
  destruct (loop_returns score (a ++ b) H []) as [rab [Eab Fab]].
  exists ra, rb; repeat split; intros st; rewrite analyze_multiple_unfold.
  - now rewrite Ea.
  - now rewrite Eb.
  - rewrite Eab; cbn [app results].
    rewrite filter_app in Fab.
    now rewrite (analysed_fun _ _ _ Fab (Forall2_app Fa Fb)).
Qed.

Lemma filter_filter {A} (f : A -> bool) (l : list A) :
  filter f (filter f l) = filter f l.
Proof.
  induction l as [| x l IH]; [reflexivity |].
  cbn [filter]; destruct (f x) eqn:E; [| exact IH].
  cbn [filter]; now rewrite E, IH.
Qed.

(** Analysing again the texts of the records of a batch gives the same
    records. *)
Theorem analyze_multiple_again
    (texts : list str) (st st' st2 : analyzer) (rs : list result) :
  analyze_multiple score texts st = (Returned rs, st') ->
  analyze_multiple score (map text rs) st2 = (Returned rs, {| results := rs |}).
Proof.
  intros H; apply analyze_multiple_returned_inv in H; destruct H as [_ F].
  rewrite (analysed_texts score _ _ F).
  assert (Hs : scores_all score (filter nonblank texts)).
  { clear st st' st2; induction F as [| t r ts rs' [ps [E _]] _ IH];
      [intros u [] |].
    intros u [<- | Hu] Hb; [now exists ps | now apply IH]. }
  destruct (loop_returns score _ Hs []) as [rs' [E F']].
  rewrite filter_filter in F'.
  rewrite analyze_multiple_unfold, E; cbn [app results].
  now rewrite (analysed_fun _ _ _ F' F).
Qed.

(** After a batch has returned, [get_statistics] is [None] exactly when the
    returned list is empty, that is when the batch had no document that is
    not blank; otherwise its total is the length of the returned list, the
    number of such documents. *)
Theorem get_statistics_after_batch
    (texts : list str) (st st' : analyzer) (rs : list result) :
  analyze_multiple score texts st = (Returned rs, st') ->
  List.length rs = List.length (filter nonblank texts)
  /\ (rs = [] -> fst (get_statistics np_round series_mean st') = Returned None)
  /\ (rs <> [] ->
      exists s, fst (get_statistics np_round series_mean st') = Returned (Some s)
                /\ total s = List.length rs
                /\ positive s + negative s + neutral s = List.length rs).
Proof.
  intros H; apply analyze_multiple_returned_inv in H; destruct H as [-> F].
  split; [symmetry; exact (Forall2_length F) |].
  unfold get_statistics, bind, get_results, ret; cbn [results].
  split; [now intros -> |].
  destruct rs as [| r rs]; [congruence |]; intros _.
  eexists; split; [reflexivity |]; cbn [total positive negative neutral].
  split; [reflexivity | apply count_label_sum].
Qed.

End BatchMore.

Lemma analyze_multiple_all_blank_witness :
  analyze_multiple (fun _ => Raised "down"%string) [s2l " "; []; s2l "	"]
    {| results := [demo_old] |}
  = (Returned [], {| results := [] |}).
Proof.
  apply (analyze_multiple_all_blank (fun _ => Raised "down"%string)).
  repeat constructor.
Defined.

Lemma analyze_multiple_app_witness :
  exists ra rb,
    (forall st, analyze_multiple demo_score [s2l "good"; s2l "  "] st
                = (Returned ra, {| results := ra |}))
    /\ (forall st, analyze_multiple demo_score [s2l "fine"] st
                   = (Returned rb, {| results := rb |}))
    /\ (forall st, analyze_multiple demo_score ([s2l "good"; s2l "  "] ++ [s2l "fine"]) st
                   = (Returned (ra ++ rb), {| results := ra ++ rb |})).
Proof.
  exact (analyze_multiple_app demo_score [s2l "good"; s2l "  "] [s2l "fine"]
           demo_scores_all).
Defined.

Lemma analyze_multiple_again_witness :
  analyze_multiple demo_score
    (map text [make_result (s2l "good") (0.5, 0.75)%float])
    {| results := [] |}
  = (Returned [make_result (s2l "good") (0.5, 0.75)%float],
     {| results := [make_result (s2l "good") (0.5, 0.75)%float] |}).
Proof.
  exact (analyze_multiple_again demo_score [s2l " "; s2l "good"]
           {| results := [demo_old] |} _ {| results := [] |} _ eq_refl).
Defined.

Lemma get_statistics_after_batch_witness :
  exists rs st',
    analyze_multiple demo_score [s2l "good"; s2l " "; s2l "fine"] {| results := [] |}
    = (Returned rs, st')
    /\ List.length rs = 2
    /\ (rs = [] -> fst (get_statistics (fun x _ => x) (fun _ => 0%float) st')
                   = Returned None)
    /\ (rs <> [] ->
        exists s, fst (get_statistics (fun x _ => x) (fun _ => 0%float) st')
                  = Returned (Some s)
                  /\ total s = List.length rs
                  /\ positive s + negative s + neutral s = List.length rs).
Proof.
  eexists; eexists; split; [reflexivity |].
  exact (get_statistics_after_batch demo_score (fun x _ => x) (fun _ => 0%float)
           [s2l "good"; s2l " "; s2l "fine"] {| results := [] |} _ _ eq_refl).
Defined.

(** ** More on keyword ranking *)

Lemma split_ws_nonempty (d : ascii) (t : str) :
  isspace d = false -> split_ws (d :: t) <> [].
Proof.
  intros Hd; destruct t as [| e t]; [cbn; rewrite Hd; discriminate |].
  rewrite split_ws_cons2, Hd.
  destruct (isspace e); [discriminate |].
  destruct (split_ws (e :: t)); discriminate.
Qed.

(** The tokens on both sides of a whitespace character. *)
Lemma split_ws_app_space (a b : str) (sp : ascii) :
  isspace sp = true -> split_ws (a ++ sp :: b) = split_ws a ++ split_ws b.
Proof.
  intros Hsp; induction a as [| c a IH].
  - cbn [app split_ws]; now rewrite Hsp.
  - destruct a as [| d a].
    + cbn [app]; rewrite split_ws_cons2, Hsp; cbn [split_ws].
      rewrite Hsp; destruct (isspace c); reflexivity.
    + cbn [app] in *; rewrite !split_ws_cons2, IH.
      destruct (isspace c); [reflexivity |].
      destruct (isspace d) eqn:Ed; [reflexivity |].
      pose proof (split_ws_nonempty d a Ed) as Hne.
      destruct (split_ws (d :: a)) as [| w ws]; [congruence | reflexivity].
Qed.

(** The tokens of the joined texts are the tokens of each text, in order. *)
Lemma split_ws_join_concat (l : list str) :
  split_ws (join (s2l " ") l) = List.concat (map split_ws l).
Proof.
  induction l as [| w ws IH]; [reflexivity |].
  destruct ws as [| w2 ws]; [cbn; now rewrite app_nil_r |].
  change (join (s2l " ") (w :: w2 :: ws))
    with (w ++ " "%char :: join (s2l " ") (w2 :: ws)).
  rewrite split_ws_app_space by reflexivity.
  rewrite IH; reflexivity.
Qed.

Lemma filter_concat {A} (f : A -> bool) (ls : list (list A)) :
  filter f (List.concat ls) = List.concat (map (filter f) ls).
Proof.
  induction ls as [| l ls IH]; [reflexivity |].
  cbn [List.concat map]; now rewrite filter_app, IH.
Qed.

(** The words counted in the joined texts are the words counted in each
    text, in order. *)
Lemma counted_words_join (l : list str) :
  counted_words (join (s2l " ") l) = List.concat (map counted_words l).
Proof.
  unfold counted_words.
  rewrite split_ws_join_concat, filter_concat, concat_map, !map_map.
  reflexivity.
Qed.

Lemma occurrences_app (w : str) (a b : list str) :
  occurrences w (a ++ b) = occurrences w a + occurrences w b.
Proof. unfold occurrences; apply count_occ_app. Qed.

Lemma occurrences_concat (w : str) (ls : list (list str)) :
  occurrences w (List.concat ls) = list_sum (map (occurrences w) ls).
Proof.
  induction ls as [| l ls IH]; [reflexivity |].
  cbn [List.concat map list_sum]; now rewrite occurrences_app, IH.
Qed.

(** Every word [get_top_words] returns is one of the counted words (a
    token longer than two characters and not a stopword, lower-cased) of
    the cleaned text of a stored record that passes the sentiment filter,
    and its count is the number of times it is counted in the cleaned
    texts of the records that pass the filter, added up. *)
Theorem top_words_provenance
    (st : analyzer) (sentiment_type : option str) (top_n : Z)
    (res : list (str * nat)) (w : str) (c : nat) :
  fst (get_top_words sentiment_type top_n st) = Returned res ->
  In (w, c) res ->
  (exists r, In r (results st) /\ passes sentiment_type r = true
             /\ In w (counted_words (cleaned_text r)))
  /\ c = list_sum (map (fun r => occurrences w (counted_words (cleaned_text r)))
                       (filter (passes sentiment_type) (results st))).
Proof.
  rewrite get_top_words_counted; cbn [fst]; intros E H.
  inversion E; subst res; clear E.
  apply most_common_In in H.
  pose proof (Counter_In_words _ _ _ H) as Hw.
  pose proof (co_count _ _ (Counter_spec _) _ _ H) as Hc.
  rewrite counted_words_join in Hw, Hc; rewrite map_map in Hw, Hc; split.
  - apply in_concat in Hw; destruct Hw as [l [Hl Hw]].
    apply in_map_iff in Hl; destruct Hl as [r [<- Hr]].
    apply filter_In in Hr; exists r; tauto.
  - now rewrite Hc, occurrences_concat, map_map.
Qed.

Lemma top_words_provenance_witness :
  (exists r,
      In r [make_result (s2l "Great product") (0.5, 0.75)%float;
            make_result (s2l "great #Great") (0.5, 0.75)%float]
      /\ passes (Some (s2l "Positive")) r = true
      /\ In (s2l "great") (counted_words (cleaned_text r)))
  /\ 3 = list_sum
           (map (fun r => occurrences (s2l "great") (counted_words (cleaned_text r)))
                (filter (passes (Some (s2l "Positive")))
                   [make_result (s2l "Great product") (0.5, 0.75)%float;
                    make_result (s2l "great #Great") (0.5, 0.75)%float])).
Proof.
  exact (top_words_provenance
           {| results := [make_result (s2l "Great product") (0.5, 0.75)%float;
                          make_result (s2l "great #Great") (0.5, 0.75)%float] |}
           (Some (s2l "Positive")) 5 _ (s2l "great") 3 eq_refl
           (or_introl eq_refl)).
Defined.

(** A sentiment filter that is not one of the three labels as the code
    spells them selects nothing: the result is empty. *)
Theorem top_words_unknown_label (st : analyzer) (s : str) (top_n : Z) :
  truthy s = true -> (forall l, label l <> s) ->
  fst (get_top_words (Some s) top_n st) = Returned [].
Proof.
  intros Hs Hl; rewrite get_top_words_value; cbn [fst select_sentiment].
  rewrite Hs.
  assert (E : filter (fun r => str_eqb (label (sentiment r)) s) (results st) = []).
  { induction (results st) as [| r rs IH]; [reflexivity |].
    cbn [filter]; now rewrite (proj2 (str_eqb_neq _ _) (Hl (sentiment r))). }
  rewrite E; unfold most_common; cbn; now rewrite firstn_nil.
Qed.

Lemma top_words_unknown_label_witness :
  fst (get_top_words (Some (s2l "positive")) 10
         {| results := [make_result (s2l "great") (0.5, 0.75)%float] |})
  = Returned [].
Proof.
  apply top_words_unknown_label; [reflexivity |].
  intros []; discriminate.
Defined.

(** When [top_n] is at least the number of distinct counted words, none is
    left out: every counted word is returned with its count. *)
Theorem top_words_complete
    (st : analyzer) (sentiment_type : option str) (top_n : Z)
    (res : list (str * nat)) (w : str) :
  let words := counted_words (join (s2l " ") (map cleaned_text
                 (filter (passes sentiment_type) (results st)))) in
  fst (get_top_words sentiment_type top_n st) = Returned res ->
  (Z.of_nat (List.length (distinct words)) <= top_n)%Z ->
  In w words ->
  In (w, occurrences w words) res.
Proof.
  intros words; rewrite get_top_words_counted; cbn [fst]; intros E Hn Hw.
  inversion E; subst res; clear E; fold words.
  pose proof (Counter_spec words) as [_ Hkeys Hc _].
  apply Hkeys, in_map_iff in Hw; destruct Hw as [[w' c] [Ew Hin]].
  cbn in Ew; subst w'; rewrite <- (Hc _ _ Hin).
  unfold most_common; rewrite firstn_all2; [now apply sorted_desc_In |].
  rewrite sorted_desc_length, Counter_length_distinct.
  assert (Hle : List.length (distinct words) <= Z.to_nat top_n) by lia.
  exact Hle.
Qed.

Lemma top_words_complete_witness :
  In (s2l "great",
      occurrences (s2l "great")
        (counted_words (join (s2l " ") (map cleaned_text
           (filter (passes None)
              [make_result (s2l "Great and great service") (0.5, 0.75)%float])))))
     [(s2l "great", 2); (s2l "service", 1)].
Proof.
  exact (top_words_complete
           {| results := [make_result (s2l "Great and great service")
                            (0.5, 0.75)%float] |}
           None 2 _ (s2l "great") eq_refl
           ltac:(vm_compute; discriminate) (or_introl eq_refl)).
Defined.

(** ** The classifier under negation *)

Lemma SFltb_opp (a b : spec_float) : SFltb (SFopp a) (SFopp b) = SFltb b a.
Proof.
  destruct a as [sa | sa | | sa ma ea], b as [sb | sb | | sb mb eb];
    try destruct sa; try destruct sb; try reflexivity;
    unfold SFltb, SFcompare, SFopp, negb;
    rewrite (Z.compare_antisym ea eb);
    destruct (ea ?= eb)%Z; cbn [CompOpp]; try reflexivity.
  - now rewrite (Pos.compare_cont_antisym mb ma Eq).
  - now rewrite (Pos.compare_cont_antisym ma mb Eq).
Qed.

Lemma ltb_opp (x y : float) : (- x <? - y)%float = (y <? x)%float.
Proof. now rewrite !ltb_spec, !opp_spec, SFltb_opp. Qed.

(** The two thresholds mirror each other: the label of the negated
    polarity is the opposite label, Positive for Negative and Negative for
    Positive, Neutral staying Neutral. *)
Theorem classify_opp (p : float) : classify (- p) = opposite (classify p).
Proof.
  unfold classify.
  assert (E1 : (f0_1 <? - p)%float = (p <? fneg0_1)%float).
  { change f0_1 with (- fneg0_1)%float; apply ltb_opp. }
  assert (E2 : (- p <? fneg0_1)%float = (f0_1 <? p)%float).
  { unfold fneg0_1; apply ltb_opp. }
  rewrite E1, E2.
  destruct (p <? fneg0_1)%float eqn:A.
  - now rewrite (below_not_above p A).
  - destruct (f0_1 <? p)%float; reflexivity.
Qed.

(** ** The Reddit scraper *)

Section ScraperMore.

Variable client : Type.
Variable connect : outcome client.
Variable me : client -> outcome unit.
Variable search : client -> str -> str -> Z -> list submission * option exn.

Lemma collect_posts_spec (items : list submission) (err : option exn)
    (posts : list str) :
  collect_posts items err posts
  = (posts ++ map post_text items,
     match err with Some e => Raised e | None => Returned tt end).
Proof.
  revert posts; induction items as [| s items IH]; intros posts; cbn.
  - now rewrite app_nil_r.
  - now rewrite IH, <- app_assoc.
Qed.

Variable is_exception : exn -> bool.
Variable emit : printed -> option exn.

Ltac scraper_cases :=
  repeat match goal with
         | |- context [match emit ?l with _ => _ end] =>
             let E := fresh "Ee" in destruct (emit l) eqn:E
         | |- context [if is_exception ?e then _ else _] =>
             let E := fresh "Ex" in destruct (is_exception e) eqn:E
         | |- context [match reddit_client ?st with _ => _ end] =>
             let E := fresh "Ec" in destruct (reddit_client st) eqn:E
         | |- context [match snd ?x with _ => _ end] =>
             let E := fresh "Es" in destruct (snd x) eqn:E
         end.

(** What a run of [search_reddit] is, by the client, the end of the search
    and the fate of the printed lines. *)
Lemma search_reddit_run
    (st : scraper client) (query subreddit : str) (limit : Z) :
  search_reddit search is_exception emit query subreddit limit st
  = match reddit_client st with
    | None =>
        match emit PrintNotInitialized with
        | None => (Returned [],
                   {| reddit_client := reddit_client st;
                      stdout := stdout st ++ [PrintNotInitialized] |})
        | Some e => (Raised e, st)
        end
    | Some c =>
        let posts := map post_text (fst (search c subreddit query limit)) in
        let failed e :=
          if is_exception e
          then match emit (PrintSearchError e) with
               | None => (Returned posts,
                          {| reddit_client := reddit_client st;
                             stdout := stdout st ++ [PrintSearchError e] |})
               | Some e' => (Raised e', st)
               end
          else (Raised e, st) in
        match snd (search c subreddit query limit) with
        | Some e => failed e
        | None =>
            match emit (PrintFound (List.length posts) query) with
            | None => (Returned posts,
                       {| reddit_client := reddit_client st;
                          stdout := stdout st
                                    ++ [PrintFound (List.length posts) query] |})
            | Some e => failed e
            end
        end
    end.
Proof.
  unfold search_reddit, sbind, get_client.
  destruct (reddit_client st) as [c |] eqn:Ec.
  - rewrite collect_posts_spec; cbn [app].
    unfold try_except, sbind, scall, print, sret; cbv zeta.
    destruct (snd (search c subreddit query limit)) as [e |];
      scraper_cases; rewrite ?Ec; reflexivity.
  - unfold print, sret; scraper_cases; rewrite ?Ec; reflexivity.
Qed.

(** [search_reddit] never changes the client.  When it returns, the result
    is the empty list without a client and otherwise the text of every
    submission the search yielded, in order, also when the search then
    raised.  What it can raise is an exception of a [print], or an
    exception of the search that is not an [Exception].  When the lines
    can be printed and the search raises [Exception]s only, it returns and
    has printed one line.  An exception of the search that is not an
    [Exception] is raised, and so is the exception of the [print] of the
    line that says there is no client. *)
Theorem search_reddit_outcome
    (st : scraper client) (query subreddit : str) (limit : Z) :
  let posts := match reddit_client st with
               | None => []
               | Some c => map post_text (fst (search c subreddit query limit))
               end in
  let run := search_reddit search is_exception emit query subreddit limit st in
  reddit_client (snd run) = reddit_client st
  /\ (forall ps, fst run = Returned ps -> ps = posts)
  /\ (forall e, fst run = Raised e ->
        (exists l, emit l = Some e)
        \/ (is_exception e = false
            /\ exists c, reddit_client st = Some c
                         /\ snd (search c subreddit query limit) = Some e))
  /\ ((forall l, emit l = None) ->
      (forall c e, reddit_client st = Some c ->
                   snd (search c subreddit query limit) = Some e ->
                   is_exception e = true) ->
      exists line,
        run = (Returned posts,
               {| reddit_client := reddit_client st;
                  stdout := stdout st ++ [line] |}))
  /\ (forall c e, reddit_client st = Some c ->
                  snd (search c subreddit query limit) = Some e ->
                  is_exception e = false -> run = (Raised e, st))
  /\ (forall e, reddit_client st = None ->
                emit PrintNotInitialized = Some e -> run = (Raised e, st)).
Proof.
  cbv zeta; rewrite search_reddit_run.
  assert (Hre : forall P Q R S T : Prop,
             T -> P /\ Q /\ R /\ S -> P /\ Q /\ R /\ S /\ T) by tauto.
  apply Hre; clear Hre.
  { split.
    - intros c e Ec Es Ex; rewrite Ec; cbv zeta; now rewrite Es, Ex.
    - intros e Ec Ee; now rewrite Ec, Ee. }
  destruct (reddit_client st) as [c |] eqn:Ec; cbv zeta.
  - destruct (snd (search c subreddit query limit)) as [e0 |] eqn:Es.
    + destruct (is_exception e0) eqn:Ex;
        [destruct (emit (PrintSearchError e0)) as [e1 |] eqn:Ee |];
        cbn [fst snd reddit_client]; (split; [now rewrite ?Ec |]);
        (split; [intros ps H; now inversion H |]); split;
        try (intros e H; inversion H; subst; eauto; fail);
        try (intros Hp Hs; rewrite Hp in Ee; discriminate Ee).
      * intros _ _; eauto.
      * intros _ Hs; rewrite (Hs c e0 eq_refl Es) in Ex; discriminate Ex.
    + destruct (emit (PrintFound _ query)) as [e0 |] eqn:Ef;
        [destruct (is_exception e0) eqn:Ex;
           [destruct (emit (PrintSearchError e0)) as [e1 |] eqn:Ee |] |];
        cbn [fst snd reddit_client]; (split; [now rewrite ?Ec |]);
        (split; [intros ps H; now inversion H |]); split;
        try (intros e H; inversion H; subst; eauto; fail);
        try (intros Hp Hs; rewrite Hp in Ef; discriminate Ef).
      intros _ _; eauto.
  - destruct (emit PrintNotInitialized) as [e0 |] eqn:Ee;
      cbn [fst snd reddit_client]; (split; [now rewrite ?Ec |]);
      (split; [intros ps H; now inversion H |]); split;
      try (intros e H; inversion H; subst; eauto; fail);
      try (intros Hp Hs; rewrite Hp in Ee; discriminate Ee).
    intros _ _; eauto.
Qed.

(** What creating the scraper is, by the two steps of the connection and
    the fate of the printed lines. *)
Lemma scraper_init_run (st : scraper client) :
  scraper_init connect me is_exception emit st
  = let failed (c0 : option client) e :=
      if is_exception e
      then match emit (PrintConnectionFailed e) with
           | None => (Returned tt,
                      {| reddit_client := None;
                         stdout := stdout st ++ [PrintConnectionFailed e] |})
           | Some e' => (Raised e', {| reddit_client := c0; stdout := stdout st |})
           end
      else (Raised e, {| reddit_client := c0; stdout := stdout st |}) in
    match connect with
    | Raised e => failed None e
    | Returned c =>
        match me c with
        | Raised e => failed (Some c) e
        | Returned _ =>
            match emit PrintConnected with
            | None => (Returned tt,
                       {| reddit_client := Some c;
                          stdout := stdout st ++ [PrintConnected] |})
            | Some e => failed (Some c) e
            end
        end
    end.
Proof.
  unfold scraper_init, initialize_api, sbind, try_except, scall, set_client, print.
  cbv zeta; cbn [reddit_client stdout].
  destruct connect as [c | e]; cbn [reddit_client stdout].
  - destruct (me c) as [[] | e]; cbn [reddit_client stdout];
      scraper_cases; cbn [reddit_client stdout]; reflexivity.
  - scraper_cases; cbn [reddit_client stdout]; reflexivity.
Qed.

(** When creating the scraper returns, it has a client exactly when the
    client was built, the connection test passed and the line saying so
    was printed.  What it can raise is an exception of a [print], or an
    exception that is not an [Exception].  When the lines can be printed
    and PRAW raises [Exception]s only, it returns, and without a client
    every later [search_all] returns the empty list.  An exception of the
    construction or of the connection test that is not an [Exception] is
    raised. *)
Theorem scraper_init_outcome (st : scraper client) :
  let run := scraper_init connect me is_exception emit st in
  (forall u c, fst run = Returned u ->
     (reddit_client (snd run) = Some c
      <-> connect = Returned c /\ me c = Returned tt
          /\ emit PrintConnected = None))
  /\ (forall e, fst run = Raised e ->
        (exists l, emit l = Some e) \/ is_exception e = false)
  /\ ((forall l, emit l = None) ->
      (forall e, connect = Raised e -> is_exception e = true) ->
      (forall c e, me c = Raised e -> is_exception e = true) ->
      exists st',
        run = (Returned tt, st')
        /\ reddit_client st'
           = match connect with
             | Returned c => match me c with
                             | Returned _ => Some c
                             | Raised _ => None
                             end
             | Raised _ => None
             end
        /\ (reddit_client st' = None ->
            forall query count,
              fst (search_all search is_exception emit query count st')
              = Returned []))
  /\ (forall e, connect = Raised e -> is_exception e = false ->
                fst run = Raised e)
  /\ (forall c e, connect = Returned c -> me c = Raised e ->
                  is_exception e = false -> fst run = Raised e).
Proof.
  cbv zeta; rewrite scraper_init_run; cbv zeta.
  assert (Hre : forall P Q R T : Prop,
             T -> P /\ Q /\ R -> P /\ Q /\ R /\ T) by tauto.
  apply Hre; clear Hre.
  { split.
    - intros e Ec Ex; now rewrite Ec, Ex.
    - intros c e Ec Em Ex; now rewrite Ec, Em, Ex. }
  assert (Hs : (forall l, emit l = None) ->
               forall st' : scraper client, reddit_client st' = None ->
               forall query count,
                 fst (search_all search is_exception emit query count st')
                 = Returned []).
  { intros Hp st' H query count; unfold search_all.
    now rewrite search_reddit_run, H, Hp. }
  assert (Hsplit : forall P Q R : Prop, P -> Q -> R -> P /\ Q /\ R) by tauto.
  destruct connect as [c0 | e0] eqn:Econ;
    [destruct (me c0) as [[] | e1] eqn:Eme;
       [destruct (emit PrintConnected) as [e2 |] eqn:Ep |] |];
    try match goal with
        | |- context [if is_exception ?e then _ else _] =>
            destruct (is_exception e) eqn:Ex;
            [destruct (emit (PrintConnectionFailed e)) as [e3 |] eqn:Ef |]
        end;
    cbn [fst snd reddit_client]; apply Hsplit.
  all: try (intros u c Hr;
            first [discriminate Hr
                  | split; [intros H; repeat split | intros [H1 [H2 H3]]];
                    congruence]).
  all: try (intros e H; first [discriminate H | inversion H; subst; eauto]).
  all: intros Hp Hc Hm;
    first [ match goal with
            | E : emit _ = Some _ |- _ => rewrite Hp in E; discriminate E
            end
          | rewrite (Hc _ eq_refl) in Ex; discriminate Ex
          | rewrite (Hm _ _ Eme) in Ex; discriminate Ex
          | eexists; split; [reflexivity |];
            split; [reflexivity | first [discriminate | now apply Hs]] ].
Qed.

End ScraperMore.

(** A search that yields one submission and then fails with an
    [Exception], on an output that takes every line: the post read so far
    is returned. *)
Lemma search_reddit_outcome_witness :
  exists line,
    search_reddit
      (fun (_ : unit) _ _ _ =>
         ([{| title := s2l "Cats"; selftext := s2l "rule" |}],
          Some "timeout"%string))
      (fun _ => true) (fun _ => None) (s2l "cats") (s2l "all") 50%Z
      {| reddit_client := Some tt; stdout := [] |}
    = (Returned [s2l "Cats rule"],
       {| reddit_client := Some tt; stdout := [line] |}).
Proof.
  exact (proj1 (proj2 (proj2 (proj2
           (search_reddit_outcome unit
              (fun _ _ _ _ =>
                 ([{| title := s2l "Cats"; selftext := s2l "rule" |}],
                  Some "timeout"%string))
              (fun _ => true) (fun _ => None)
              {| reddit_client := Some tt; stdout := [] |}
              (s2l "cats") (s2l "all") 50%Z))))
           (fun _ => eq_refl) (fun _ _ _ _ => eq_refl)).
Defined.

(** A connection whose test fails with an [Exception], on an output that
    takes every line: the scraper is created without a client, and its
    searches return the empty list. *)
Lemma scraper_init_outcome_witness :
  exists st',
    scraper_init (Returned tt) (fun _ => Raised "401"%string)
      (fun _ => true) (fun _ => None)
      {| reddit_client := Some tt; stdout := [] |}
    = (Returned tt, st')
    /\ reddit_client st' = None
    /\ (reddit_client st' = None ->
        forall query count,
          fst (search_all
                 (fun (_ : unit) _ _ _ => ([] : list submission, None))
                 (fun _ => true) (fun _ => None) query count st')
          = Returned []).
Proof.
  exact (proj1 (proj2 (proj2
           (scraper_init_outcome unit (Returned tt)
              (fun _ => Raised "401"%string)
              (fun _ _ _ _ => ([], None))
              (fun _ => true) (fun _ => None)
              {| reddit_client := Some tt; stdout := [] |})))
           (fun _ => eq_refl) (fun _ _ => eq_refl) (fun _ _ _ => eq_refl)).
Defined.

(** ** The lines of a pasted text *)

Lemma split_on_no_sep (sep : ascii) (t : str) :
  Forall (fun l => ~ In sep l) (split_on sep t).
Proof.
  induction t as [| c t IH]; cbn [split_on]; [repeat constructor; tauto |].
  destruct (Ascii.eqb_spec c sep) as [-> | N]; [constructor; [tauto | exact IH] |].
  destruct (split_on sep t) as [| l ls]; [repeat constructor; cbn; tauto |].
  inversion IH as [| ? ? Hl Hls]; subst; constructor; [| exact Hls].
  cbn; intros [E | H]; [congruence | tauto].
Qed.

Lemma split_on_In (sep c : ascii) (t : str) :
  c <> sep -> (In c t <-> exists l, In l (split_on sep t) /\ In c l).
Proof.
  intros Hc; induction t as [| d t IH]; cbn [split_on].
  - split; [intros [] | intros [l [[E | []] Hin]]; subst l; exact Hin].
  - destruct (Ascii.eqb_spec d sep) as [E | N].
    + subst d; split.
      * intros [E | H]; [congruence |].
        apply IH in H; destruct H as [l [Hl Hin]]; exists l; split;
          [now right | exact Hin].
      * intros [l [[E | Hl] Hin]]; [subst l; destruct Hin |].
        right; apply IH; now exists l.
    + destruct (split_on sep t) as [| l ls].
      * split.
        -- intros [E | H]; [exists [d]; split; now left |].
           apply IH in H; destruct H as [l [[] _]].
        -- intros [l [[E | []] Hin]]; subst l.
           destruct Hin as [E | []]; now left.
      * split.
        -- intros [E | H]; [exists (d :: l); split; now left |].
           apply IH in H; destruct H as [l' [[E | Hl'] Hin]].
           ++ subst l'; exists (d :: l); split; [now left | now right].
           ++ exists l'; split; [now right | exact Hin].
        -- intros [l' [[E | Hl'] Hin]].
           ++ subst l'; destruct Hin as [E | Hin]; [now left |].
              right; apply IH; exists l; split; [now left | exact Hin].
           ++ right; apply IH; exists l'; split; [now right | exact Hin].
Qed.

Lemma lstrip_In (c : ascii) (t : str) : In c (lstrip t) -> In c t.
Proof.
  destruct (lstrip_spec t) as [ws [E _]]; intros H.
  rewrite E; apply in_app_iff; now right.
Qed.

Lemma strip_In (c : ascii) (t : str) : In c (strip t) -> In c t.
Proof.
  unfold strip; intros H.
  apply in_rev, lstrip_In in H; apply in_rev in H; now apply lstrip_In.
Qed.

Lemma nonblank_true (t : str) :
  nonblank t = true <-> exists c, In c t /\ isspace c = false.
Proof.
  destruct (nonblank t) eqn:E; split; try discriminate; try reflexivity.
  - intros _.
    destruct (Forall_Exists_dec (fun c => isspace c = true)
                (fun c => bool_dec (isspace c) true) t) as [F | X].
    + apply nonblank_false in F; congruence.
    + apply Exists_exists in X; destruct X as [c [Hc Hs]]; exists c.
      split; [exact Hc | now destruct (isspace c)].
  - intros [c [Hc Hs]]; apply nonblank_false in E.
    rewrite Forall_forall in E; apply E in Hc; congruence.
Qed.

Lemma nonblank_strip (t : str) : nonblank (strip t) = nonblank t.
Proof. unfold nonblank; now rewrite strip_strip. Qed.

Lemma parse_lines_all (content : str) :
  Forall (fun t => strip t = t /\ nonblank t = true /\ ~ In newline t)
         (parse_lines content).
Proof.
  unfold parse_lines; apply Forall_forall; intros t Ht.
  apply in_map_iff in Ht; destruct Ht as [l [<- Hl]].
  apply filter_In in Hl; destruct Hl as [Hl Hb].
  split; [apply strip_strip |]; split.
  - rewrite nonblank_strip; exact Hb.
  - intros Hin; apply strip_In in Hin.
    pose proof (split_on_no_sep newline content) as F.
    rewrite Forall_forall in F; now apply (F l Hl).
Qed.

Lemma parse_lines_kept (content : str) :
  filter nonblank (parse_lines content) = parse_lines content.
Proof.
  induction (parse_lines_all content) as [| t ts [_ [Hb _]] _ IH];
    [reflexivity |].
  cbn [filter]; now rewrite Hb, IH.
Qed.

(** Every text taken from the pasted or uploaded content is a line of it
    without a newline, stripped of whitespace at both ends and not blank:
    the batch skips none of them. *)
Theorem parse_lines_texts (content : str) :
  Forall (fun t => strip t = t /\ nonblank t = true /\ ~ In newline t)
         (parse_lines content)
  /\ filter nonblank (parse_lines content) = parse_lines content.
Proof.
  split; [apply parse_lines_all | apply parse_lines_kept].
Qed.

(** The manual-input branch hands [analyze_multiple] a list exactly when
    the pasted text is not blank, and that list is then not empty. *)
Theorem manual_texts_nonempty (manual_text : str) :
  (manual_texts manual_text = None <-> parse_lines manual_text = [])
  /\ (forall texts, manual_texts manual_text = Some texts ->
        texts = parse_lines manual_text /\ texts <> []).
Proof.
  assert (H : nonblank manual_text = true <-> parse_lines manual_text <> []).
  { rewrite nonblank_true; unfold parse_lines; split.
    - intros [c [Hc Hs]] E; apply map_eq_nil in E.
      assert (Hn : c <> newline) by (intros ->; discriminate Hs).
      apply (split_on_In newline c manual_text Hn) in Hc.
      destruct Hc as [l [Hl Hin]].
      assert (Hb : nonblank l = true) by (apply nonblank_true; now exists c).
      assert (Hf : In l (filter (fun line => truthy (strip line))
                            (split_on newline manual_text)))
        by (apply filter_In; now split).
      rewrite E in Hf; destruct Hf.
    - intros Hne.
      destruct (filter (fun line => truthy (strip line))
                  (split_on newline manual_text)) as [| l ls] eqn:E;
        [now elim Hne |].
      assert (Hf : In l (filter (fun line => truthy (strip line))
                            (split_on newline manual_text)))
        by (rewrite E; now left).
      apply filter_In in Hf; destruct Hf as [Hl Hb].
      apply nonblank_true in Hb; destruct Hb as [c [Hc Hs]]; exists c.
      split; [| exact Hs].
      assert (Hn : c <> newline) by (intros ->; discriminate Hs).
      apply (split_on_In newline c manual_text Hn); now exists l. }
  unfold manual_texts; fold (nonblank manual_text).
  destruct (nonblank manual_text) eqn:E; split.
  - split; [discriminate |]; intros E'.
    now apply (proj1 H eq_refl) in E'.
  - intros texts Ht; inversion Ht; subst; split; [reflexivity |].
    exact (proj1 H eq_refl).
  - split; [intros _ | reflexivity].
    destruct (parse_lines manual_text) as [| t ts] eqn:E'; [reflexivity |].
    assert (Hx : false = true) by (apply H; discriminate).
    discriminate Hx.
  - discriminate.
Qed.

Section Pasted.

Variable score : str -> outcome (float * float).

(** With a scorer that returns on them, the batch over the lines of a
    pasted text has one record per line with content, in order, whose text
    is the stripped line. *)
Theorem analyze_pasted_lines (content : str) :
  scores_all score (parse_lines content) ->
  exists rs,
    (forall st, analyze_multiple score (parse_lines content) st
                = (Returned rs, {| results := rs |}))
    /\ map text rs = parse_lines content.
Proof.
  intros Hs; destruct (loop_returns score _ Hs []) as [rs [E F]].
  rewrite (parse_lines_kept content) in F.
  exists rs; split; [| exact (analysed_texts score _ _ F)].
  intros st; now rewrite analyze_multiple_unfold, E.
Qed.

End Pasted.

Example parse_lines_sample :
  parse_lines (s2l "  Great! 
  
bad
bad service  
") = [s2l "Great!"; s2l "bad"; s2l "bad service"].
Proof. reflexivity. Qed.

Lemma demo_scores_pasted :
  scores_all demo_score (parse_lines (s2l " good 

fine")).
Proof.
  intros t [<- | [<- | []]] _; eexists; reflexivity.
Defined.

Lemma analyze_pasted_lines_witness :
  exists rs,
    (forall st, analyze_multiple demo_score (parse_lines (s2l " good 

fine")) st
                = (Returned rs, {| results := rs |}))
    /\ map text rs = parse_lines (s2l " good 

fine").
Proof.
  exact (analyze_pasted_lines demo_score (s2l " good 

fine") demo_scores_pasted).
Defined.

(** ** One pass is enough *)

(** Whatever the text, one pass of each substitution does its work: after
    the URLs are removed no URL starts anywhere, and after the mentions are
    removed no mention starts anywhere and still no URL does. *)
Theorem substitutions_leave_no_match (x : str) :
  free url_re (remove_urls x)
  /\ free mention_re (remove_mentions (remove_urls x))
  /\ free url_re (remove_mentions (remove_urls x)).
Proof.
  split; [apply remove_urls_free |].
  split; [apply remove_mentions_free |].
  apply remove_mentions_url_free, remove_urls_free.
Qed.

(** ** When cleaning twice changes nothing *)






(** The specification's own example, a text with a hash sign, is among
    the texts cleaned once and for all. *)
Example clean_text_twice_spec_example :
  clean_text (clean_text spec_example) = clean_text spec_example.
Proof. reflexivity. Qed.

(** So is every text without a hash sign. *)
Lemma clean_text_twice_without_hash (x : str) :
  ~ In "#"%char x ->
  free url_re (clean_text x) /\ free mention_re (clean_text x).
Proof. apply clean_text_without_hash_free. Qed.
